(** * pybkt: a Burkhard-Keller tree over a pluggable metric

    Shallow embedding of [src/bktree.py]: the [levenshtein] function, the
    [BKTree] class ([__init__], [add_word], [query], [find],
    [save_to_file], [load_from_file]) and the Python primitives they use.

    Conventions of the embedding.
    - A Python [str] is a [string]; a character is a code point below 256.
    - A Python [int] is a [Z]; a numpy [int64] is a [Z] kept in range by
      [wrap64].
    - A Python [dict] with [str] keys is an association list in insertion
      order ([dict]); a real dict never repeats a key ([dict_keys_unique]).
    - A node [(word, children)] is [Node word children].  The tuple built by
      [add_word] and the two-element list built by [json.loads] are unpacked
      alike by every method, so both are the same [Node].
    - A method is a computation in the monad [M]: it takes the object (and,
      for file operations, the file system) and gives back an [outcome]
      together with the object after the call.  An exception is [Raise]. *)

From Stdlib Require Import ZArith List String Ascii Bool Lia Permutation.
From Stdlib Require Import Decimal DecimalString DecimalZ DecimalPos.
From Stdlib Require Import Sorted Arith.
From Equations Require Import Equations.
Import ListNotations.

Local Open Scope string_scope.
Local Open Scope Z_scope.

(** ** Python primitives *)

Module Py.

(** Exceptions the modelled code can raise. *)
Inductive exn : Type :=
| TypeError          (* unpacking [None] *)
| ValueError         (* [int] of a string that is no integer literal *)
| StopIteration      (* [next] on an exhausted iterator *)
| OSError            (* [open] fails *)
| JSONDecodeError    (* [json.loads] on text that is no JSON document *)
| ShapeError.        (* the loaded document is no tree: outside this model *)

Inductive outcome (A : Type) : Type :=
| Ok (a : A)
| Raise (e : exn).
Arguments Ok {A} a.
Arguments Raise {A} e.

(** State-and-exception monad of method calls on a state [S]. *)
Definition M (S A : Type) : Type := S -> outcome A * S.

Definition ret {S A} (a : A) : M S A := fun s => (Ok a, s).

Definition raise {S A} (e : exn) : M S A := fun s => (Raise e, s).

Definition bind {S A B} (c : M S A) (k : A -> M S B) : M S B :=
  fun s =>
    match c s with
    | (Ok a, s') => k a s'
    | (Raise e, s') => (Raise e, s')
    end.

Declare Scope py_scope.
Delimit Scope py_scope with py.

Notation "x <- c ;; k" := (bind c (fun x => k))
  (at level 61, c at next level, right associativity) : py_scope.
Notation "' pat <- c ;; k" := (bind c (fun x => match x with pat => k end))
  (at level 61, pat pattern, c at next level, right associativity) : py_scope.

Local Open Scope py_scope.

Definition get {S} : M S S := fun s => (Ok s, s).

Definition put {S} (s : S) : M S unit := fun _ => (Ok tt, s).

(** [for x in xs: body(x)] *)
Fixpoint for_each {S A} (xs : list A) (body : A -> M S unit) : M S unit :=
  match xs with
  | [] => ret tt
  | x :: rest => _ <- body x ;; for_each rest body
  end.

Definition result {S A} (c : M S A) (s : S) : outcome A := fst (c s).
Definition after {S A} (c : M S A) (s : S) : S := snd (c s).

(** *** [len], [str], [int], [range] *)

Definition len (s : string) : Z := Z.of_nat (String.length s).

(** [str(i)] for an integer [i]: decimal digits, ["-"] in front of a
    negative number. *)
Definition str (i : Z) : string := NilZero.string_of_int (Z.to_int i).

(** Characters [str.isspace] accepts, among the code points below 256. *)
Definition is_space (c : ascii) : bool :=
  let k := nat_of_ascii c in
  (((9 <=? k) && (k <=? 13)) || ((28 <=? k) && (k <=? 32))
   || (k =? 133) || (k =? 160))%nat.

Definition digit_value (c : ascii) : option Z :=
  let k := nat_of_ascii c in
  if ((48 <=? k) && (k <=? 57))%nat then Some (Z.of_nat (k - 48)) else None.

Fixpoint all_space (s : string) : bool :=
  match s with
  | EmptyString => true
  | String c r => is_space c && all_space r
  end.

Fixpoint lstrip (s : string) : string :=
  match s with
  | EmptyString => EmptyString
  | String c r => if is_space c then lstrip r else s
  end.

(** The digits of an integer literal, read left to right: single
    underscores may separate digits, white space may follow the last digit.
    [after_digit] tells that the character before was a digit. *)
Fixpoint int_digits (acc : Z) (after_digit : bool) (s : string) : option Z :=
  match s with
  | EmptyString => if after_digit then Some acc else None
  | String c r =>
      match digit_value c with
      | Some v => int_digits (10 * acc + v) true r
      | None =>
          if after_digit then
            if Ascii.eqb c "_" then int_digits acc false r
            else if all_space s then Some acc else None
          else None
      end
  end.

(** [int(s)] for a string [s], base 10. *)
Definition int (s : string) : outcome Z :=
  let parsed :=
    match lstrip s with
    | String "-" r => option_map Z.opp (int_digits 0 false r)
    | String "+" r => int_digits 0 false r
    | r => int_digits 0 false r
    end in
  match parsed with
  | Some v => Ok v
  | None => Raise ValueError
  end.

(** [range(lo, hi)] *)
Definition range (lo hi : Z) : list Z :=
  map (fun k => lo + Z.of_nat k) (seq 0 (Z.to_nat (hi - lo))).

(** *** [dict] with [str] keys, in insertion order *)

Definition dict (V : Type) : Type := list (string * V).

(** [d.get(key)] *)
Fixpoint dict_get {V} (d : dict V) (key : string) : option V :=
  match d with
  | [] => None
  | (k, v) :: rest => if String.eqb k key then Some v else dict_get rest key
  end.

(** [d[key] = v]: an existing key keeps its place, a new one goes last. *)
Fixpoint dict_set {V} (d : dict V) (key : string) (v : V) : dict V :=
  match d with
  | [] => [(key, v)]
  | (k, v0) :: rest =>
      if String.eqb k key then (k, v) :: rest
      else (k, v0) :: dict_set rest key v
  end.

Definition dict_keys {V} (d : dict V) : list string := map fst d.

Definition dict_keys_unique {V} (d : dict V) : Prop := NoDup (dict_keys d).

(** *** Sorting *)

(** [sorted] and [list.sort] are stable and compare with [<] only; on a
    list they give what this stable insertion sort gives. *)
Fixpoint insert_by {A} (lt : A -> A -> bool) (x : A) (l : list A) : list A :=
  match l with
  | [] => [x]
  | y :: r => if lt y x then y :: insert_by lt x r else x :: y :: r
  end.

Fixpoint sort_by {A} (lt : A -> A -> bool) (l : list A) : list A :=
  match l with
  | [] => []
  | x :: r => insert_by lt x (sort_by lt r)
  end.

(** [a < b] on tuples [(int, str)]: the first components decide unless
    they are equal. *)
Definition tuple_lt (a b : Z * string) : bool :=
  if fst a =? fst b then String.ltb (snd a) (snd b) else fst a <? fst b.

(** [sorted(l)] on a list of [(int, str)] tuples. *)
Definition sorted (l : list (Z * string)) : list (Z * string) :=
  sort_by tuple_lt l.

(** [l.sort(key=itemgetter(0))] *)
Definition sort_by_item0 (l : list (Z * string)) : list (Z * string) :=
  sort_by (fun a b => fst a <? fst b) l.

End Py.

Import Py.
Local Open Scope py_scope.

(** ** [levenshtein] *)

Module Levenshtein.

(** numpy [int64] arithmetic wraps around. *)
Definition wrap64 (z : Z) : Z := (z + 2 ^ 63) mod 2 ^ 64 - 2 ^ 63.

(** [np.arange(n)] *)
Definition arange (n : Z) : list Z := range 0 n.

(** [row + 1] on an [int64] array *)
Definition add_scalar (row : list Z) (k : Z) : list Z :=
  map (fun x => wrap64 (x + k)) row.

(** [np.add(a, b)], both of one length *)
Definition np_add (a b : list Z) : list Z :=
  map (fun xy => wrap64 (fst xy + snd xy)) (combine a b).

(** [np.minimum(a, b)], both of one length *)
Definition np_minimum (a b : list Z) : list Z :=
  map (fun xy => Z.min (fst xy) (snd xy)) (combine a b).

(** [target != s], as the 0/1 array [np.add] sees *)
Definition np_ne (target : list ascii) (s : ascii) : list Z :=
  map (fun t => if Ascii.eqb t s then 0 else 1) target.

(** [row[1:] = v], for [v] as long as [row[1:]] *)
Definition set_from_1 (row v : list Z) : list Z :=
  match row with
  | [] => []
  | x :: _ => x :: v
  end.

(** One pass of the [for s in source] loop: the new [previous_row].  Each
    right-hand side is a whole array computed before it is assigned. *)
Definition row_step (target : list ascii) (previous_row : list Z) (s : ascii)
  : list Z :=
  let current_row := add_scalar previous_row 1 in
  let current_row :=
    set_from_1 current_row
      (np_minimum (tl current_row)
                  (np_add (removelast previous_row) (np_ne target s))) in
  let current_row :=
    set_from_1 current_row
      (np_minimum (tl current_row)
                  (add_scalar (removelast current_row) 1)) in
  current_row.

(** The function's body once [len(source) >= len(target)] holds. *)
Definition levenshtein_ordered (source target : string) : Z :=
  if len target =? 0 then len source
  else
    let source := list_ascii_of_string source in
    let target := list_ascii_of_string target in
    let previous_row := arange (Z.of_nat (List.length target) + 1) in
    let previous_row := fold_left (row_step target) source previous_row in
    last previous_row 0.

(** [levenshtein(source, target)].  The recursive call swaps the arguments,
    so its own length test fails and it runs the body. *)
Definition levenshtein (source target : string) : Z :=
  if len source <? len target then levenshtein_ordered target source
  else levenshtein_ordered source target.

End Levenshtein.

Import Levenshtein.

(** ** The [BKTree] class *)

Module BK.

(** A node [(word, children)]; [children] maps [str(distance)] to a node. *)
#[warnings="-register-all"]
Inductive node : Type :=
| Node (value : string) (children : dict node).

Definition node_value (nd : node) : string :=
  match nd with Node v _ => v end.

Definition node_children (nd : node) : dict node :=
  match nd with Node _ ch => ch end.

(** The object: [self.distance_func] and [self.tree] ([None] when empty). *)
Record BKTree : Type := mkBKTree {
  distance_func : string -> string -> Z;
  tree : option node
}.

Definition set_tree (t : option node) : M BKTree unit :=
  fun self => (Ok tt, mkBKTree (distance_func self) t).

(** *** [add_word] *)

(** The [while True] loop started at [node]: the tree below [node] once the
    loop has stored the word.  The loop changes one [children] dict in
    place; here the path down to that dict is rebuilt around it.  The inner
    [walk] is [children.get(key)] followed by the store or the descent;
    [add_word_loop_eq] states the loop with [dict_get] and [dict_set]. *)
Fixpoint add_word_loop (_distance_func : string -> string -> Z)
    (word : string) (nd : node) : node :=
  match nd with
  | Node parent children =>
      let distance := _distance_func word parent in
      let key := str distance in
      Node parent
        ((fix walk (items : dict node) : dict node :=
            match items with
            | [] => [(key, Node word [])]
            | (k, child) :: rest =>
                if String.eqb k key
                then (k, add_word_loop _distance_func word child) :: rest
                else (k, child) :: walk rest
            end) children)
  end.

Definition add_word (word : string) : M BKTree unit :=
  self <- get ;;
  match tree self with
  | None => set_tree (Some (Node word []))
  | Some nd =>
      let _distance_func := distance_func self in
      set_tree (Some (add_word_loop _distance_func word nd))
  end.

(** *** [__init__] *)

(** What [words] can be: a list, or an iterator (a generator, a [filter]
    object) that yields the given words. *)
Inductive words_arg : Type :=
| WordList (items : list string)
| WordIter (yields : list string).

(** Truth value: an empty list is false, an iterator object is true. *)
Definition truthy (words : words_arg) : bool :=
  match words with
  | WordList [] => false
  | WordList (_ :: _) => true
  | WordIter _ => true
  end.

(** [isinstance(words, Iterable)] *)
Definition is_iterable (words : words_arg) : bool := true.

(** The words [iter(words)] yields. *)
Definition iter (words : words_arg) : list string :=
  match words with
  | WordList l => l
  | WordIter l => l
  end.

(** [BKTree(distance_func, words)]; [words = None] stands for a call that
    leaves the argument out, so that the default [list()] is used. *)
Definition init (distance_func : string -> string -> Z)
    (words : option words_arg) : outcome BKTree :=
  let words := match words with Some w => w | None => WordList [] end in
  let self := mkBKTree distance_func None in
  let body : M BKTree unit :=
    if truthy words && is_iterable words then
      match iter words with
      | [] => raise StopIteration
      | root :: it =>
          _ <- set_tree (Some (Node root [])) ;;
          for_each it add_word
      end
    else ret tt in
  match body self with
  | (Ok _, self') => Ok self'
  | (Raise e, _) => Raise e
  end.

(** *** [query] *)

(** The local function [rec] of [query].  The inner [get_rec] is
    [children.get(str(i))] followed by the recursive call; [rec_eq] states
    the function with [dict_get]. *)
Fixpoint rec (distance_func : string -> string -> Z) (word : string) (n : Z)
    (parent : node) : list (Z * string) :=
  match parent with
  | Node p_word children =>
      let distance := distance_func word p_word in
      let results := if distance <=? n then [(distance, p_word)] else [] in
      results ++
      flat_map
        (fun i =>
           (fix get_rec (items : dict node) : list (Z * string) :=
              match items with
              | [] => []
              | (k, child) :: rest =>
                  if String.eqb k (str i)
                  then rec distance_func word n child
                  else get_rec rest
              end) children)
        (range (distance - n) (distance + n + 1))
  end.

Definition query (word : string) (n : Z) : M BKTree (list (Z * string)) :=
  self <- get ;;
  match tree self with
  | None => raise TypeError
  | Some root => ret (sorted (rec (distance_func self) word n root))
  end.

(** *** [find] *)

(** The generator [c for d, c in children.items() if lower <= int(d) <= upper],
    consumed to its end. *)
Fixpoint select_children (lower upper : Z) (items : dict node)
  : outcome (list node) :=
  match items with
  | [] => Ok []
  | (d, c) :: rest =>
      match int d with
      | Raise e => Raise e
      | Ok k =>
          match select_children lower upper rest with
          | Raise e => Raise e
          | Ok cs => Ok (if (lower <=? k) && (k <=? upper) then c :: cs else cs)
          end
      end
  end.

(** The nodes one pass of the [while candidates] loop adds to the queue. *)
Definition extension (children : dict node) (distance n : Z)
  : outcome (list node) :=
  match children with
  | [] => Ok []
  | _ :: _ =>
      let lower := distance - n in
      let upper := distance + n in
      select_children lower upper children
  end.

Fixpoint node_size (nd : node) : nat :=
  match nd with
  | Node _ children =>
      S (fold_right (fun kc acc => (node_size (snd kc) + acc)%nat) O children)
  end.

Definition queue_size (candidates : list node) : nat :=
  fold_right (fun c acc => (node_size c + acc)%nat) O candidates.

(** A value together with the fact that it is what the expression gave. *)
Definition inspect {A} (a : A) : {b : A | a = b} := exist _ a eq_refl.

(** The [while candidates] loop: [candidates] is the deque, [found] the
    list of results so far. *)
Equations? find_loop (_distance_func : string -> string -> Z) (item : string)
    (n : Z) (candidates : list node) (found : list (Z * string))
  : outcome (list (Z * string)) by wf (queue_size candidates) lt :=
  find_loop _distance_func item n [] found := Ok found;
  find_loop _distance_func item n (Node candidate children :: rest) found
    with inspect (extension children (_distance_func candidate item) n) => {
    | exist _ (Raise e) _ := Raise e;
    | exist _ (Ok more) _ :=
        find_loop _distance_func item n (rest ++ more)
          (if _distance_func candidate item <=? n
           then found ++ [(_distance_func candidate item, candidate)]
           else found) }.
Proof.
  (* the queue loses the node taken and gains some of its children *)
  assert (Hsel : forall lower upper items cs,
             select_children lower upper items = Ok cs ->
             (queue_size cs
              <= fold_right (fun kc acc => node_size (snd kc) + acc) O items)%nat).
  { intros lower upper items. induction items as [|[d c] tl IH]; simpl;
      intros cs H.
    - injection H as <-. simpl. lia.
    - destruct (int d) as [k|]; [|discriminate].
      destruct (select_children lower upper tl) as [cs'|]; [|discriminate].
      injection H as <-. specialize (IH cs' eq_refl).
      destruct ((lower <=? k) && (k <=? upper)); simpl; lia. }
  assert (Happ : forall a b, queue_size (a ++ b)
                             = (queue_size a + queue_size b)%nat).
  { intros a b. induction a; simpl; lia. }
  rewrite Happ.
  match goal with H : extension _ _ _ = Ok _ |- _ => rename H into Hext end.
  unfold extension in Hext. destruct children as [|kc tl].
  - injection Hext as <-. simpl. lia.
  - apply Hsel in Hext. simpl in Hext |- *. lia.
Qed.

Definition find (item : string) (n : Z) : M BKTree (list (Z * string)) :=
  self <- get ;;
  match tree self with
  | None => ret []
  | Some root =>
      let _distance_func := distance_func self in
      match find_loop _distance_func item n [root] [] with
      | Raise e => raise e
      | Ok found => ret (sort_by_item0 found)
      end
  end.

End BK.

Import BK.

(** ** [save_to_file] and [load_from_file] *)

Module Persist.

(** A JSON document, as [json.dumps] writes it and [json.loads] reads it.
    The text syntax belongs to the [json] library; a file written by
    [json.dumps] is modelled by the document it holds. *)
#[warnings="-register-all"]
Inductive json : Type :=
| JNull
| JString (s : string)
| JArray (items : list json)
| JObject (members : list (string * json)).

(** [json.dumps] of a node: a tuple becomes an array, a dict an object. *)
Fixpoint dumps_node (nd : node) : json :=
  match nd with
  | Node value children =>
      JArray [JString value;
              JObject (map (fun kc => (fst kc, dumps_node (snd kc))) children)]
  end.

(** [json.dumps(self.tree)] *)
Definition dumps (t : option node) : json :=
  match t with
  | None => JNull
  | Some nd => dumps_node nd
  end.

(** [json.loads] of a document that has the shape of a node: an array
    becomes a list, an object a dict filled member by member. *)
Fixpoint loads_node (doc : json) : option node :=
  match doc with
  | JArray [JString value; JObject members] =>
      option_map (Node value)
        ((fix fill (members : list (string * json)) (d : dict node)
            : option (dict node) :=
            match members with
            | [] => Some d
            | (k, child) :: rest =>
                match loads_node child with
                | Some c => fill rest (dict_set d k c)
                | None => None
                end
            end) members [])
  | _ => None
  end.

(** The loop of [loads_node] that fills the dict, by name. *)
Fixpoint fill_dict (members : list (string * json)) (d : dict node)
  : option (dict node) :=
  match members with
  | [] => Some d
  | (k, child) :: rest =>
      match loads_node child with
      | Some c => fill_dict rest (dict_set d k c)
      | None => None
      end
  end.

(** [json.loads] of a document that holds a tree or [null]. *)
Definition loads (doc : json) : option (option node) :=
  match doc with
  | JNull => Some None
  | _ => option_map Some (loads_node doc)
  end.

(** What a file holds: the text of a JSON document, or other text. *)
Inductive file_content : Type :=
| JsonText (doc : json)
| OtherText (text : string).

(** The part of the operating system the two methods touch. *)
Record filesystem : Type := mkFS {
  cwd : string;                              (* [os.getcwd()] *)
  files : string -> option file_content;     (* the readable files *)
  writable : string -> bool                  (* [open(path, 'w')] succeeds *)
}.

Definition ends_with_slash (s : string) : bool :=
  match List.rev (list_ascii_of_string s) with
  | c :: _ => Ascii.eqb c "/"
  | [] => false
  end.

(** [os.path.join(a, b)] for a relative [b] *)
Definition path_join (a b : string) : string :=
  if String.eqb a "" || ends_with_slash a then a ++ b
  else a ++ "/" ++ b.

(** [os.path.isabs(p)] *)
Definition is_absolute (p : string) : bool :=
  match p with
  | String c _ => Ascii.eqb c "/"
  | EmptyString => false
  end.

(** The file [open] reaches: [cwd/tree.json] when [file_path] is [None] or
    empty, [file_path] itself when it is absolute, and [file_path] below
    the working directory otherwise.  A file is known here by this string:
    other spellings of one file (["."], [".."], doubled slashes, links) are
    beyond the model. *)
Definition resolve (fs : filesystem) (file_path : option string) : string :=
  match file_path with
  | None => path_join (cwd fs) "tree.json"
  | Some p =>
      if String.eqb p "" then path_join (cwd fs) "tree.json"
      else if is_absolute p then p
      else path_join (cwd fs) p
  end.

Definition write_file (fs : filesystem) (path : string) (c : file_content)
  : filesystem :=
  mkFS (cwd fs)
       (fun p => if String.eqb p path then Some c else files fs p)
       (writable fs).

(** [file.write(json.dumps(self.tree))] on the file opened for writing. *)
Definition save_to_file (file_path : option string)
  : M (BKTree * filesystem) unit :=
  '(self, fs) <- get ;;
  let file_path := resolve fs file_path in
  if writable fs file_path
  then put (self, write_file fs file_path (JsonText (dumps (tree self))))
  else raise OSError.

(** [self.tree = json.loads(file.read())].  Python stores whatever the
    document holds and returns: after a document that is neither [null]
    nor of the shape of a node, [self.tree] is no tree, and [option node]
    has no value for it.  The embedding ends there with [ShapeError], which
    is a mark of its own and no exception of Python; nothing is stated
    about that case. *)
Definition load_from_file (file_path : option string)
  : M (BKTree * filesystem) unit :=
  '(self, fs) <- get ;;
  let file_path := resolve fs file_path in
  match files fs file_path with
  | None => raise OSError
  | Some (OtherText _) => raise JSONDecodeError
  | Some (JsonText doc) =>
      match loads doc with
      | Some t => put (mkBKTree (distance_func self) t, fs)
      | None => raise ShapeError
      end
  end.

End Persist.

Import Persist.

(** ** Vocabulary of the statements *)

(** All nodes of a tree, the root first. *)
Fixpoint nodes (nd : node) : list node :=
  match nd with
  | Node _ children => nd :: flat_map (fun kc => nodes (snd kc)) children
  end.

(** The stored words, one per node. *)
Fixpoint values (nd : node) : list string :=
  match nd with
  | Node value children => value :: flat_map (fun kc => values (snd kc)) children
  end.

(** The stored words of an object. *)
Definition stored_words (self : BKTree) : list string :=
  match tree self with
  | None => []
  | Some root => values root
  end.

(** No dict of the tree repeats a key. *)
Inductive dicts_ok : node -> Prop :=
| dicts_ok_node value children :
    dict_keys_unique children ->
    (forall k c, In (k, c) children -> dicts_ok c) ->
    dicts_ok (Node value children).

(** The shape [add_word] builds: below the child stored under key [k] of a
    node [N], every word [s] has [k = str(distance_func(s, N.value))]. *)
Inductive bk_inv (df : string -> string -> Z) : node -> Prop :=
| bk_inv_node value children :
    dict_keys_unique children ->
    (forall k c, In (k, c) children -> bk_inv df c) ->
    (forall k c s, In (k, c) children -> In s (values c) ->
                   k = str (df s value)) ->
    bk_inv df (Node value children).

(** What the docstring and the spec ask of [distance_func]. *)
Record metric (df : string -> string -> Z) : Prop := mkMetric {
  metric_nonneg : forall a b, 0 <= df a b;
  metric_refl : forall a, df a a = 0;
  metric_sym : forall a b, df a b = df b a;
  metric_triangle : forall a b c, df a c <= df a b + df b c
}.

(** The objects a program can reach from the constructor by method calls
    that return or raise. *)
Inductive built : BKTree -> Prop :=
| built_init df words self :
    init df words = Ok self -> built self
| built_add_word self word :
    built self -> built (after (add_word word) self)
| built_query self word n :
    built self -> built (after (query word n) self)
| built_find self item n :
    built self -> built (after (find item n) self).

(** A metric simple enough to reason about: 0 on equal words, 1 otherwise. *)
Definition discrete (a b : string) : Z := if String.eqb a b then 0 else 1.

(** A list of results in ascending order of distance. *)
Definition ascending (l : list (Z * string)) : Prop :=
  StronglySorted (fun a b => fst a <= fst b) l.

(** The shape invariant, for an object. *)
Definition tree_inv (self : BKTree) : Prop :=
  match tree self with
  | None => True
  | Some root => bk_inv (distance_func self) root
  end.

(** The answer asked of a radius query: every word of [words] within [n]
    of [word], paired with its distance. *)
Definition within (df : string -> string -> Z) (word : string) (n : Z)
    (words : list string) : list (Z * string) :=
  filter (fun p => fst p <=? n) (map (fun v => (df word v, v)) words).

(** Every dict of the object's tree has distinct keys. *)
Definition tree_ok (self : BKTree) : Prop :=
  match tree self with
  | None => True
  | Some root => dicts_ok root
  end.

(** The word list of the persistence example. *)
Definition book_words : list string :=
  ["book"; "books"; "cook"; "booze"; "cake"].

(** A file system with no file yet, where every path can be written. *)
Definition empty_fs : filesystem :=
  mkFS "/home/user" (fun _ => None) (fun _ => true).

(** The object [BKTree(discrete, ["book", "cook"])]. *)
Definition two_words : BKTree :=
  mkBKTree discrete (Some (Node "book" [("1", Node "cook" [])])).

(** The object [BKTree(levenshtein, book_words)]. *)
Definition book_tree : BKTree :=
  mkBKTree levenshtein
    (Some (Node "book"
             [("1", Node "books" [("2", Node "cook" [])]);
              ("2", Node "booze" []);
              ("4", Node "cake" [])])).

(** The object [BKTree(levenshtein, ["book", "books"])]. *)
Definition book_books : BKTree :=
  mkBKTree levenshtein (Some (Node "book" [("1", Node "books" [])])).

(** Induction on a node with the hypothesis for every child. *)
Fixpoint node_induction (P : node -> Prop)
    (step : forall value children,
        (forall k c, In (k, c) children -> P c) -> P (Node value children))
    (nd : node) : P nd :=
  match nd with
  | Node value children =>
      step value children
        ((fix all (items : dict node)
            : forall k c, In (k, c) items -> P c :=
            match items with
            | [] => fun k c H => match H with end
            | (k0, c0) :: rest => fun k c H =>
                match H with
                | or_introl E =>
                    eq_ind c0 P (node_induction P step c0) c
                           (f_equal snd E)
                | or_intror H' => all rest k c H'
                end
            end) children)
  end.

(** ** Further example objects *)

(** A tree as [load_from_file] can produce it from a hand-written file:
    the key ["x"] is no integer literal. *)
Definition hand_made : BKTree :=
  mkBKTree discrete (Some (Node "a" [("x", Node "b" [])])).

(** The object [BKTree(levenshtein, ["abcdZZ", "abcd"])]. *)
Definition lev_pair : BKTree :=
  mkBKTree levenshtein (Some (Node "abcdZZ" [("2", Node "abcd" [])])).

(** ** [dict_words] *)

Module Words.

Definition LF : ascii := "010"%char.
Definition CR : ascii := "013"%char.

(** Text mode with universal newlines: ["\r\n"] and a lone ["\r"] are read
    as ["\n"]. *)
Fixpoint translate_newlines (text : string) : string :=
  match text with
  | EmptyString => EmptyString
  | String c r =>
      if Ascii.eqb c CR then
        match r with
        | EmptyString => String LF EmptyString
        | String c2 r2 =>
            if Ascii.eqb c2 LF then String LF (translate_newlines r2)
            else String LF (translate_newlines r)
        end
      else String c (translate_newlines r)
  end.

(** The lines a loop over the text gives: each ends with its ["\n"], except
    a last line that has none. *)
Fixpoint split_lines (text : string) : list string :=
  match text with
  | EmptyString => []
  | String c r =>
      if Ascii.eqb c LF then String LF EmptyString :: split_lines r
      else match split_lines r with
           | [] => [String c EmptyString]
           | line :: rest => String c line :: rest
           end
  end.

(** The lines [for line in open(dict_file)] yields when [text] is the text
    of the file, that is, its bytes once [open] has decoded them (for a
    file of ASCII characters, the bytes themselves). *)
Definition file_lines (text : string) : list string :=
  split_lines (translate_newlines text).

(** [s.rstrip()] *)
Fixpoint rstrip (s : string) : string :=
  match s with
  | EmptyString => EmptyString
  | String c r =>
      match rstrip r with
      | EmptyString => if is_space c then EmptyString else String c EmptyString
      | String c' r' => String c (String c' r')
      end
  end.

(** [str.strip(s)] *)
Definition strip (s : string) : string := rstrip (lstrip s).

(** The words the iterator [dict_words(dict_file)] yields, in order, for a
    file whose decoded text is [text]:
    [filter(len, map(str.strip, open(dict_file)))].
    ([open] itself, which raises when the file cannot be read, is the
    caller's file system.) *)
Definition dict_words (text : string) : list string :=
  filter (fun w => negb (len w =? 0)) (map strip (file_lines text)).

(** The characters of a string. *)
Definition chars (s : string) : list ascii := list_ascii_of_string s.

(** A word as [dict_words] yields it: not empty, no white space at either
    end, no line break inside. *)
Definition clean_word (w : string) : Prop :=
  w <> EmptyString /\ strip w = w
  /\ ~ In LF (chars w) /\ ~ In CR (chars w).

(** The text of a file with the given words, one per line. *)
Fixpoint one_per_line (ws : list string) : string :=
  match ws with
  | [] => EmptyString
  | w :: rest => w ++ String LF (one_per_line rest)
  end.

End Words.

Import Words.

(** ** The walk of [add_word] *)

(** [added df word nd nd']: [nd'] is [nd] after the loop of [add_word]
    has walked from [nd].  Where the key of the word at the node is free,
    the leaf [(word, {})] goes under it, last in the dict; where it is
    taken, the walk goes on in the child there and the dict keeps its other
    entries. *)
Inductive added (df : string -> string -> Z) (word : string)
  : node -> node -> Prop :=
| added_here parent children :
    dict_get children (str (df word parent)) = None ->
    added df word (Node parent children)
      (Node parent (children ++ [(str (df word parent), Node word [])])%list)
| added_below parent children child child' :
    dict_get children (str (df word parent)) = Some child ->
    added df word child child' ->
    added df word (Node parent children)
      (Node parent (dict_set children (str (df word parent)) child')).


(** The object [BKTree(levenshtein, ["bbacc"])]. *)
Definition one_word : BKTree :=
  mkBKTree levenshtein (Some (Node "bbacc" [])).

(** A word of ASCII characters only. *)
Definition ascii_only (w : string) : Prop :=
  Forall (fun c => (nat_of_ascii c < 128)%nat) (chars w).

(** * Facts about the Python primitives *)

Local Open Scope list_scope.

Section PyFacts.

Lemma bind_get {S A} (k : S -> M S A) (s : S) :
  bind get k s = k s s.
Proof. reflexivity. Qed.

(** ** [int] undoes [str] *)

Lemma of_lu_rev_snoc (d t : uint) :
  Z.of_N (Unsigned.of_lu (revapp d t))
  = Z.of_N (Unsigned.of_lu (Decimal.rev d))
    + Z.of_N (Unsigned.of_lu t) * 10 ^ Z.of_N (Unsigned.usize d).
Proof.
  rewrite Unsigned.of_lu_revapp, N2Z.inj_add, N2Z.inj_mul, N2Z.inj_pow.
  reflexivity.
Qed.

Lemma pow10_succ (k : N) : 10 ^ Z.of_N (N.succ k) = 10 * 10 ^ Z.of_N k.
Proof. rewrite N2Z.inj_succ. apply Z.pow_succ_r, N2Z.is_nonneg. Qed.

Ltac digit_step IH :=
  cbn [NilEmpty.string_of_uint int_digits];
  match goal with
  | |- context [digit_value ?c] =>
      let v := eval vm_compute in (digit_value c) in
      change (digit_value c) with v
  end;
  cbv iota beta;
  rewrite IH by (right; reflexivity);
  f_equal;
  match goal with
  | |- context [Decimal.rev (?D ?d)] =>
      change (Decimal.rev (D d)) with (revapp d (D Nil));
      rewrite (of_lu_rev_snoc d (D Nil));
      change (Unsigned.usize (D d)) with (N.succ (Unsigned.usize d));
      rewrite pow10_succ;
      let v := eval vm_compute in (Z.of_N (Unsigned.of_lu (D Nil))) in
      change (Z.of_N (Unsigned.of_lu (D Nil))) with v
  end;
  ring.

Lemma digits_of_uint (d : uint) : forall acc b,
  d <> Nil \/ b = true ->
  int_digits acc b (NilEmpty.string_of_uint d)
  = Some (acc * 10 ^ Z.of_N (Unsigned.usize d)
          + Z.of_N (Unsigned.of_lu (Decimal.rev d))).
Proof.
  induction d; intros acc b Hd; [| digit_step IHd ..].
  destruct Hd as [Hd | ->]; [congruence|].
  cbn. f_equal. lia.
Qed.

Lemma int_of_digits (d : uint) :
  d <> Nil ->
  int (NilEmpty.string_of_uint d)
  = Ok (Z.of_N (Pos.of_uint d)).
Proof.
  intros Hd.
  assert (E : int (NilEmpty.string_of_uint d)
              = match int_digits 0 false (NilEmpty.string_of_uint d) with
                | Some v => Ok v
                | None => Raise ValueError
                end)
    by (destruct d; [congruence | reflexivity ..]).
  rewrite E, digits_of_uint by (left; exact Hd).
  rewrite Unsigned.of_uint_alt. f_equal.
Qed.

Lemma int_of_minus_digits (d : uint) :
  d <> Nil ->
  int (String "-" (NilEmpty.string_of_uint d))
  = Ok (- Z.of_N (Pos.of_uint d)).
Proof.
  intros Hd.
  change (int (String "-" (NilEmpty.string_of_uint d)))
    with (match option_map Z.opp
                  (int_digits 0 false (NilEmpty.string_of_uint d)) with
          | Some v => Ok v
          | None => Raise ValueError
          end).
  rewrite digits_of_uint by (left; exact Hd).
  rewrite Unsigned.of_uint_alt. reflexivity.
Qed.

Lemma string_of_uint_nonnil (d : uint) :
  d <> Nil -> NilZero.string_of_uint d = NilEmpty.string_of_uint d.
Proof. destruct d; [congruence | reflexivity ..]. Qed.

Lemma int_str (z : Z) : int (str z) = Ok z.
Proof.
  unfold str. destruct z as [|p|p]; [reflexivity | |];
    cbn [Z.to_int NilZero.string_of_int];
    pose proof (Unsigned.to_uint_nonnil p) as Hn;
    rewrite string_of_uint_nonnil by exact Hn.
  - rewrite int_of_digits, Unsigned.of_to by exact Hn. reflexivity.
  - rewrite int_of_minus_digits, Unsigned.of_to by exact Hn. reflexivity.
Qed.

Lemma str_inj (a b : Z) : str a = str b -> a = b.
Proof.
  intros H. pose proof (int_str a) as Ha. rewrite H, int_str in Ha.
  congruence.
Qed.

Lemma str_eqb (a b : Z) : String.eqb (str a) (str b) = (a =? b).
Proof.
  destruct (String.eqb_spec (str a) (str b)) as [E|E];
    destruct (Z.eqb_spec a b) as [E'|E']; try reflexivity.
  - elim E'. apply str_inj, E.
  - elim E. now rewrite E'.
Qed.

(** ** [range] *)

Lemma in_range (lo hi i : Z) : In i (range lo hi) <-> lo <= i < hi.
Proof.
  unfold range. rewrite in_map_iff. split.
  - intros (k & <- & Hk). apply in_seq in Hk. lia.
  - intros H. exists (Z.to_nat (i - lo)). split; [lia|].
    apply in_seq. lia.
Qed.

Lemma NoDup_range (lo hi : Z) : NoDup (range lo hi).
Proof.
  unfold range. apply Finite.Injective_map_NoDup_in.
  - intros a b _ _ H. lia.
  - apply seq_NoDup.
Qed.

(** ** Sorting *)

Lemma insert_by_perm {A} (lt : A -> A -> bool) (x : A) (l : list A) :
  Permutation (insert_by lt x l) (x :: l).
Proof.
  induction l as [|y r IH]; simpl; [reflexivity|].
  destruct (lt y x); [|reflexivity].
  rewrite IH. apply perm_swap.
Qed.

Lemma sort_by_perm {A} (lt : A -> A -> bool) (l : list A) :
  Permutation (sort_by lt l) l.
Proof.
  induction l as [|x r IH]; simpl; [reflexivity|].
  rewrite insert_by_perm. now constructor.
Qed.

(** A comparison [lt] that agrees with a transitive [le] sorts by [le]. *)
Lemma sort_by_sorted {A} (lt : A -> A -> bool) (le : A -> A -> Prop) :
  (forall a b c, le a b -> le b c -> le a c) ->
  (forall a b, lt a b = true -> le a b) ->
  (forall a b, lt a b = false -> le b a) ->
  forall l, StronglySorted le (sort_by lt l).
Proof.
  intros Htrans Hlt Hnlt.
  assert (Hins : forall x l, StronglySorted le l ->
                             StronglySorted le (insert_by lt x l)).
  { intros x l Hl. induction Hl as [|y r Hr IH Hy]; simpl.
    - repeat constructor.
    - destruct (lt y x) eqn:E.
      + constructor; [exact IH|].
        apply Forall_forall. intros z Hz.
        apply (Permutation_in _ (insert_by_perm lt x r)) in Hz.
        destruct Hz as [<-|Hz]; [now apply Hlt|].
        rewrite Forall_forall in Hy. now apply Hy.
      + constructor; [now constructor|].
        constructor; [now apply Hnlt|].
        apply Forall_forall. intros z Hz.
        rewrite Forall_forall in Hy.
        apply Htrans with y; [now apply Hnlt | now apply Hy]. }
  induction l as [|x r IH]; simpl; [constructor | now apply Hins].
Qed.

Lemma sorted_perm (l : list (Z * string)) : Permutation (sorted l) l.
Proof. apply sort_by_perm. Qed.

Lemma sort_by_item0_perm (l : list (Z * string)) :
  Permutation (sort_by_item0 l) l.
Proof. apply sort_by_perm. Qed.

Lemma sorted_ascending (l : list (Z * string)) : ascending (sorted l).
Proof.
  apply sort_by_sorted.
  - intros; lia.
  - intros a b. unfold tuple_lt.
    destruct (Z.eqb_spec (fst a) (fst b)); [lia|]. intros H; lia.
  - intros a b. unfold tuple_lt.
    destruct (Z.eqb_spec (fst a) (fst b)); [lia|]. intros H; lia.
Qed.

Lemma sort_by_item0_ascending (l : list (Z * string)) :
  ascending (sort_by_item0 l).
Proof.
  apply sort_by_sorted; intros; lia.
Qed.

End PyFacts.

(** * Facts about dicts *)

Section DictFacts.

Context {V : Type}.

Lemma dict_get_none (d : dict V) (key : string) :
  dict_get d key = None <-> ~ In key (dict_keys d).
Proof.
  induction d as [|[k v] rest IH]; simpl.
  - tauto.
  - destruct (String.eqb_spec k key) as [E|E].
    + split; [discriminate | intros H; elim H; now left].
    + rewrite IH. tauto.
Qed.

Lemma dict_get_some (d : dict V) (key : string) (v : V) :
  dict_get d key = Some v -> In (key, v) d.
Proof.
  induction d as [|[k v0] rest IH]; simpl; [discriminate|].
  destruct (String.eqb_spec k key) as [E|E].
  - intros [= ->]. left. now rewrite E.
  - intros H. right. now apply IH.
Qed.

Lemma dict_get_in (d : dict V) (key : string) (v : V) :
  dict_keys_unique d -> In (key, v) d -> dict_get d key = Some v.
Proof.
  unfold dict_keys_unique, dict_keys.
  induction d as [|[k v0] rest IH]; simpl; [tauto|].
  intros Hnd [H|H].
  - injection H as -> ->. now rewrite String.eqb_refl.
  - inversion Hnd as [|? ? Hk Hrest]; subst.
    destruct (String.eqb_spec k key) as [E|E].
    + elim Hk. subst k. apply in_map_iff. now exists (key, v).
    + now apply IH.
Qed.

Lemma dict_set_in (d : dict V) (key : string) (v : V) (k : string) (x : V) :
  In (k, x) (dict_set d key v) -> (k = key /\ x = v) \/ In (k, x) d.
Proof.
  induction d as [|[k0 v0] rest IH]; simpl.
  - intros [[= <- <-]|[]]. now left.
  - destruct (String.eqb_spec k0 key) as [E|E]; simpl.
    + intros [[= <- <-]|H]; [left; now split | right; now right].
    + intros [H|H]; [right; now left|].
      destruct (IH H) as [?|?]; [now left | right; now right].
Qed.

Lemma dict_set_new (d : dict V) (key : string) (v : V) :
  dict_get d key = None -> dict_set d key v = d ++ [(key, v)].
Proof.
  induction d as [|[k0 v0] rest IH]; simpl; [reflexivity|].
  destruct (String.eqb k0 key); [discriminate|].
  intros H. now rewrite IH.
Qed.

Lemma dict_set_old (d : dict V) (key : string) (v0 v : V) :
  dict_get d key = Some v0 ->
  exists d1 d2, d = d1 ++ (key, v0) :: d2
                /\ dict_set d key v = d1 ++ (key, v) :: d2.
Proof.
  induction d as [|[k1 v1] rest IH]; simpl; [discriminate|].
  destruct (String.eqb_spec k1 key) as [E|E].
  - intros [= ->]. subst k1. now exists [], rest.
  - intros H. destruct (IH H) as (d1 & d2 & -> & ->).
    now exists ((k1, v1) :: d1), d2.
Qed.

Lemma dict_set_keys_unique (d : dict V) (key : string) (v : V) :
  dict_keys_unique d -> dict_keys_unique (dict_set d key v).
Proof.
  unfold dict_keys_unique, dict_keys. intros Hd.
  destruct (dict_get d key) as [v0|] eqn:G.
  - destruct (dict_set_old d key v0 v G) as (d1 & d2 & E1 & E2).
    rewrite E2. rewrite E1 in Hd.
    now rewrite map_app in *.
  - rewrite (dict_set_new d key v G), map_app. simpl.
    apply dict_get_none in G.
    apply (Permutation_NoDup (Permutation_cons_append (map fst d) key)).
    now constructor.
Qed.

End DictFacts.

(** * Facts about the tree *)

Section TreeFacts.

Variable df : string -> string -> Z.

(** The loop of [add_word], as the source writes it. *)
Lemma add_word_loop_eq (word parent : string) (children : dict node) :
  add_word_loop df word (Node parent children)
  = let distance := df word parent in
    match dict_get children (str distance) with
    | None =>
        Node parent (dict_set children (str distance) (Node word []))
    | Some child =>
        Node parent (dict_set children (str distance)
                              (add_word_loop df word child))
    end.
Proof.
  cbn zeta. simpl add_word_loop.
  set (key := str (df word parent)).
  assert (E : forall items,
    (fix walk (items : dict node) : dict node :=
       match items with
       | [] => [(key, Node word [])]
       | (k, child) :: rest =>
           if String.eqb k key
           then (k, add_word_loop df word child) :: rest
           else (k, child) :: walk rest
       end) items
    = match dict_get items key with
      | None => dict_set items key (Node word [])
      | Some child => dict_set items key (add_word_loop df word child)
      end).
  { induction items as [|[k c] rest IH]; [reflexivity|].
    simpl. destruct (String.eqb k key); [reflexivity|].
    rewrite IH. now destruct (dict_get rest key). }
  rewrite E. now destruct (dict_get children key).
Qed.

(** The function [rec] of [query], as the source writes it. *)
Lemma rec_eq (word : string) (n : Z) (p_word : string) (children : dict node) :
  rec df word n (Node p_word children)
  = let distance := df word p_word in
    (if distance <=? n then [(distance, p_word)] else [])
    ++ flat_map
         (fun i =>
            match dict_get children (str i) with
            | Some child => rec df word n child
            | None => []
            end)
         (range (distance - n) (distance + n + 1)).
Proof.
  cbn zeta. simpl rec. f_equal.
  apply flat_map_ext. intros i.
  induction children as [|[k c] rest IH]; [reflexivity|].
  simpl. now destruct (String.eqb k (str i)).
Qed.

Lemma values_flat (items : dict node) (k : string) (c : node) (s : string) :
  In (k, c) items -> In s (values c) ->
  In s (flat_map (fun kc => values (snd kc)) items).
Proof.
  intros Hc Hs. apply in_flat_map. now exists (k, c).
Qed.

(** [add_word] stores the word once more and keeps every other word. *)
Lemma add_word_loop_values (word : string) (nd : node) :
  Permutation (values (add_word_loop df word nd)) (word :: values nd).
Proof.
  induction nd as [parent children IH] using node_induction.
  rewrite add_word_loop_eq. cbn zeta.
  destruct (dict_get children (str (df word parent))) as [child|] eqn:G.
  - destruct (dict_set_old children _ child (add_word_loop df word child) G)
      as (d1 & d2 & E1 & E2).
    rewrite E2, E1. simpl.
    rewrite !flat_map_app. simpl.
    assert (Hin : In (str (df word parent), child) children)
      by now apply dict_get_some.
    rewrite (IH _ _ Hin). simpl.
    rewrite perm_swap. constructor.
    apply Permutation_sym, Permutation_middle.
  - rewrite (dict_set_new children _ _ G). simpl.
    rewrite flat_map_app. simpl.
    rewrite perm_swap. constructor.
    rewrite <- Permutation_middle, app_nil_r. reflexivity.
Qed.

(** [add_word] keeps the shape it relies on. *)
Lemma add_word_loop_inv (word : string) (nd : node) :
  bk_inv df nd -> bk_inv df (add_word_loop df word nd).
Proof.
  induction nd as [parent children IH] using node_induction.
  intros Hinv. inversion Hinv as [? ? Huniq Hsub Hkey]; subst.
  rewrite add_word_loop_eq. cbn zeta.
  destruct (dict_get children (str (df word parent))) as [child|] eqn:G.
  - assert (Hin : In (str (df word parent), child) children)
      by now apply dict_get_some.
    constructor.
    + now apply dict_set_keys_unique.
    + intros k c H. apply dict_set_in in H. destruct H as [[-> ->]|H].
      * apply (IH _ _ Hin). now apply (Hsub _ _ Hin).
      * now apply (Hsub _ _ H).
    + intros k c s H Hs. apply dict_set_in in H. destruct H as [[-> ->]|H].
      * apply (Permutation_in _ (add_word_loop_values word child)) in Hs.
        destruct Hs as [<-|Hs]; [reflexivity|].
        now apply (Hkey _ _ _ Hin).
      * now apply (Hkey _ _ _ H).
  - constructor.
    + now apply dict_set_keys_unique.
    + intros k c H. apply dict_set_in in H. destruct H as [[-> ->]|H].
      * constructor; [constructor | intros ? ? [] | intros ? ? ? []].
      * now apply (Hsub _ _ H).
    + intros k c s H Hs. apply dict_set_in in H. destruct H as [[-> ->]|H].
      * simpl in Hs. destruct Hs as [<-|[]]. reflexivity.
      * now apply (Hkey _ _ _ H).
Qed.

Lemma leaf_inv (word : string) : bk_inv df (Node word []).
Proof.
  constructor; [constructor | intros ? ? [] | intros ? ? ? []].
Qed.

End TreeFacts.

(** * Facts about the methods *)

Section MethodFacts.

Lemma add_word_after (word : string) (self : BKTree) :
  after (add_word word) self
  = mkBKTree (distance_func self)
      (Some match tree self with
            | None => Node word []
            | Some nd => add_word_loop (distance_func self) word nd
            end).
Proof.
  unfold after, add_word. rewrite bind_get.
  now destruct (tree self).
Qed.

Lemma add_word_result (word : string) (self : BKTree) :
  result (add_word word) self = Ok tt.
Proof.
  unfold result, add_word. rewrite bind_get.
  now destruct (tree self).
Qed.

Lemma query_after (word : string) (n : Z) (self : BKTree) :
  after (query word n) self = self.
Proof.
  unfold after, query. rewrite bind_get.
  now destruct (tree self).
Qed.

Lemma find_after (item : string) (n : Z) (self : BKTree) :
  after (find item n) self = self.
Proof.
  unfold after, find. rewrite bind_get.
  destruct (tree self) as [root|]; [|reflexivity].
  cbn zeta. now destruct (find_loop _ _ _ _ _).
Qed.

(** The [for i in it: self.add_word(i)] loop of [__init__]. *)
Lemma for_each_add_word (ws : list string) (self : BKTree) :
  for_each ws add_word self
  = (Ok tt, fold_left (fun s w => after (add_word w) s) ws self).
Proof.
  revert self. induction ws as [|w ws IH]; intros self; [reflexivity|].
  simpl. unfold bind at 1.
  pose proof (add_word_result w self) as R.
  unfold result in R. unfold after at 2.
  destruct (add_word w self) as [[[]|e] s']; simpl in *; [|discriminate].
  apply IH.
Qed.

(** What the constructor returns. *)
Lemma init_eq (df : string -> string -> Z) (words : option words_arg) :
  init df words
  = match words with
    | None | Some (WordList []) => Ok (mkBKTree df None)
    | Some (WordIter []) => Raise StopIteration
    | Some (WordList (root :: it)) | Some (WordIter (root :: it)) =>
        Ok (fold_left (fun s w => after (add_word w) s) it
                      (mkBKTree df (Some (Node root []))))
    end.
Proof.
  unfold init.
  destruct words as [[[|root it]|[|root it]]|]; try reflexivity;
    cbn -[for_each fold_left]; unfold bind, set_tree; cbn -[for_each fold_left];
    now rewrite for_each_add_word.
Qed.

Lemma add_word_tree_inv (word : string) (self : BKTree) :
  tree_inv self -> tree_inv (after (add_word word) self).
Proof.
  unfold tree_inv. rewrite add_word_after. simpl.
  destruct (tree self) as [root|]; intros H.
  - now apply add_word_loop_inv.
  - apply leaf_inv.
Qed.

Lemma fold_add_word_tree_inv (ws : list string) (self : BKTree) :
  tree_inv self ->
  tree_inv (fold_left (fun s w => after (add_word w) s) ws self).
Proof.
  revert self. induction ws as [|w ws IH]; intros self H; [exact H|].
  simpl. apply IH. now apply add_word_tree_inv.
Qed.

(** Every object a program can reach has the shape [add_word] builds. *)
Lemma built_tree_inv (self : BKTree) : built self -> tree_inv self.
Proof.
  induction 1 as [df words self Hinit | | |].
  - rewrite init_eq in Hinit.
    destruct words as [[[|root it]|[|root it]]|];
      try discriminate; injection Hinit as <-;
      try exact I;
      apply fold_add_word_tree_inv; apply leaf_inv.
  - now apply add_word_tree_inv.
  - now rewrite query_after.
  - now rewrite find_after.
Qed.

End MethodFacts.

(** * [query] on a tree of the shape [add_word] builds *)

Section QueryFacts.

Lemma flat_map_nil {A B} (l : list A) :
  flat_map (fun _ : A => @nil B) l = [].
Proof. induction l; simpl; auto. Qed.

Lemma flat_map_pointwise {A B} (f g : A -> list B) (l : list A) :
  (forall x, In x l -> Permutation (f x) (g x)) ->
  Permutation (flat_map f l) (flat_map g l).
Proof.
  induction l as [|x l IH]; intros H; simpl; [reflexivity|].
  apply Permutation_app.
  - apply H. now left.
  - apply IH. intros y Hy. apply H. now right.
Qed.

(** One index of a duplicate-free index list gives [A], the others [F]. *)
Lemma flat_map_pick {B} (z : Z) (A : list B) (F : Z -> list B) (R : list Z) :
  NoDup R -> F z = [] ->
  Permutation (flat_map (fun i => if i =? z then A else F i) R)
              ((if in_dec Z.eq_dec z R then A else []) ++ flat_map F R).
Proof.
  intros Hnd Fz. induction Hnd as [|i R Hi Hnd IH]; [reflexivity|].
  cbn [flat_map]. rewrite IH.
  destruct (Z.eqb_spec i z) as [E|E].
  - subst i. rewrite Fz.
    destruct (in_dec Z.eq_dec z (z :: R)) as [_|N]; [|elim N; now left].
    destruct (in_dec Z.eq_dec z R); [contradiction|reflexivity].
  - destruct (in_dec Z.eq_dec z (i :: R)) as [[H|H]|N];
      destruct (in_dec Z.eq_dec z R) as [H'|N']; try congruence; try tauto.
    + apply Permutation_app_swap_app.
    + elim N. now right.
    + reflexivity.
Qed.

(** Looking the indices up one by one visits the children whose key is
    among the indices, each once. *)
Lemma lookup_flat_map {B} (g : node -> list B) (kz : node -> Z)
    (children : dict node) (R : list Z) :
  NoDup R ->
  dict_keys_unique children ->
  (forall k c, In (k, c) children -> k = str (kz c)) ->
  Permutation
    (flat_map (fun i => match dict_get children (str i) with
                        | Some c => g c
                        | None => []
                        end) R)
    (flat_map (fun kc => if in_dec Z.eq_dec (kz (snd kc)) R
                         then g (snd kc) else []) children).
Proof.
  intros HR. induction children as [|[k c] rest IH]; intros Huniq Hkeys.
  - simpl. now rewrite flat_map_nil.
  - inversion Huniq as [|? ? Hk Hrest]; subst.
    assert (Ek : k = str (kz c)) by (apply Hkeys; now left).
    assert (Fz : match dict_get rest (str (kz c)) with
                 | Some c' => g c'
                 | None => []
                 end = []).
    { replace (dict_get rest (str (kz c))) with (@None node); [reflexivity|].
      symmetry. apply dict_get_none. now rewrite <- Ek. }
    simpl.
    rewrite <- (IH Hrest) by (intros; apply Hkeys; now right).
    rewrite <- (flat_map_pick (kz c) (g c) _ R HR Fz).
    erewrite flat_map_ext; [reflexivity|].
    intros i. cbn beta. rewrite Ek, str_eqb, Z.eqb_sym.
    now destruct (i =? kz c).
Qed.

Variable df : string -> string -> Z.

Lemma within_app (word : string) (n : Z) (a b : list string) :
  within df word n (a ++ b) = within df word n a ++ within df word n b.
Proof. unfold within. now rewrite map_app, filter_app. Qed.

Lemma within_flat_map {A} (word : string) (n : Z) (f : A -> list string)
    (l : list A) :
  within df word n (flat_map f l)
  = flat_map (fun x => within df word n (f x)) l.
Proof.
  induction l as [|x l IH]; simpl; [reflexivity|].
  now rewrite within_app, IH.
Qed.

Lemma within_in (word : string) (n : Z) (words : list string) (d : Z)
    (v : string) :
  In (d, v) (within df word n words)
  <-> In v words /\ d = df word v /\ d <= n.
Proof.
  unfold within. rewrite filter_In, in_map_iff. simpl. split.
  - intros [(x & [= <- <-] & Hx) Hle]. repeat split; [exact Hx | lia].
  - intros (Hv & -> & Hle). split; [now exists v | lia].
Qed.

Lemma within_none (word : string) (n : Z) (words : list string) :
  (forall s, In s words -> n < df word s) -> within df word n words = [].
Proof.
  intros H. unfold within.
  induction words as [|s words IH]; simpl; [reflexivity|].
  destruct (Z.leb_spec (df word s) n) as [L|L].
  - specialize (H s (or_introl eq_refl)). lia.
  - apply IH. intros; apply H; now right.
Qed.

Lemma node_value_stored (nd : node) : In (node_value nd) (values nd).
Proof. destruct nd; now left. Qed.

(** Whatever the tree, [rec] returns only stored words within [n], each
    with its distance. *)
Lemma rec_sound (word : string) (n : Z) (nd : node) (d : Z) (v : string) :
  In (d, v) (rec df word n nd) ->
  In v (values nd) /\ d = df word v /\ d <= n.
Proof.
  induction nd as [p_word children IH] using node_induction.
  rewrite rec_eq. cbn zeta. intros H.
  apply in_app_or in H. destruct H as [H|H].
  - destruct (Z.leb_spec (df word p_word) n) as [L|L]; [|destruct H].
    destruct H as [[= <- <-]|[]]. repeat split; [now left | exact L].
  - apply in_flat_map in H. destruct H as (i & _ & H).
    destruct (dict_get children (str i)) as [child|] eqn:G; [|destruct H].
    apply dict_get_some in G.
    destruct (IH _ _ G H) as (Hv & Hd & Hn).
    repeat split; [|exact Hd | exact Hn].
    right. now apply (values_flat children (str i) child).
Qed.

Hypothesis df_sym : forall a b, df a b = df b a.
Hypothesis df_triangle : forall a b c, df a c <= df a b + df b c.

(** On a tree of the shape [add_word] builds, [rec] returns exactly the
    stored words within [n], one result per node. *)
Lemma rec_exact (word : string) (n : Z) (nd : node) :
  bk_inv df nd ->
  Permutation (rec df word n nd) (within df word n (values nd)).
Proof.
  induction nd as [p_word children IH] using node_induction.
  intros Hinv. inversion Hinv as [? ? Huniq Hsub Hkey]; subst.
  rewrite rec_eq. cbn zeta.
  change (values (Node p_word children))
    with ([p_word] ++ flat_map (fun kc => values (snd kc)) children).
  rewrite within_app. apply Permutation_app.
  - unfold within. simpl. now destruct (df word p_word <=? n).
  - rewrite within_flat_map.
    rewrite (lookup_flat_map (rec df word n)
               (fun c => df (node_value c) p_word) children
               _ (NoDup_range _ _) Huniq).
    2:{ intros k c H. apply (Hkey k c _ H), node_value_stored. }
    apply flat_map_pointwise. intros [k c] Hc. cbn [snd].
    destruct (in_dec Z.eq_dec (df (node_value c) p_word) _) as [Hin|Hout].
    + apply (IH _ _ Hc), (Hsub _ _ Hc).
    + symmetry. rewrite within_none; [reflexivity|].
      intros s Hs.
      assert (Es : df s p_word = df (node_value c) p_word).
      { apply str_inj. rewrite <- (Hkey _ _ _ Hc Hs).
        apply (Hkey _ _ _ Hc), node_value_stored. }
      rewrite in_range, <- Es in Hout.
      pose proof (df_triangle word s p_word).
      pose proof (df_triangle s word p_word).
      rewrite (df_sym s word) in *.
      lia.
Qed.

End QueryFacts.

Section QueryMethod.

Lemma query_result (word : string) (n : Z) (self : BKTree) :
  result (query word n) self
  = match tree self with
    | None => Raise TypeError
    | Some root => Ok (sorted (rec (distance_func self) word n root))
    end.
Proof.
  unfold result, query. rewrite bind_get.
  now destruct (tree self).
Qed.

Lemma find_result (item : string) (n : Z) (self : BKTree) :
  result (find item n) self
  = match tree self with
    | None => Ok []
    | Some root =>
        match find_loop (distance_func self) item n [root] [] with
        | Raise e => Raise e
        | Ok found => Ok (sort_by_item0 found)
        end
    end.
Proof.
  unfold result, find. rewrite bind_get.
  destruct (tree self) as [root|]; [|reflexivity].
  cbn zeta. now destruct (find_loop _ _ _ _ _).
Qed.

(** On a non-empty tree of the shape [add_word] builds, under a symmetric
    distance with the triangle inequality, [query] returns the stored words
    within [n], one result per node, in ascending order of distance. *)
Lemma query_exact (self : BKTree) (root : node) (word : string) (n : Z) :
  (forall a b, distance_func self a b = distance_func self b a) ->
  (forall a b c, distance_func self a c
                 <= distance_func self a b + distance_func self b c) ->
  tree self = Some root ->
  bk_inv (distance_func self) root ->
  exists l,
    result (query word n) self = Ok l
    /\ Permutation l (within (distance_func self) word n (values root))
    /\ ascending l.
Proof.
  intros Hsym Htri Ht Hinv.
  exists (sorted (rec (distance_func self) word n root)).
  rewrite query_result, Ht. split; [reflexivity|]. split.
  - rewrite sorted_perm. now apply rec_exact.
  - apply sorted_ascending.
Qed.

End QueryMethod.

(** * [find] *)

Section FindFacts.

Variable df : string -> string -> Z.

(** Whatever the tree, [find] records only words within [n], each with the
    distance [distance_func(candidate, item)]. *)
Lemma find_loop_sound (item : string) (n : Z) (candidates : list node)
    (found l : list (Z * string)) :
  find_loop df item n candidates found = Ok l ->
  forall d v, In (d, v) l ->
    In (d, v) found \/ (d <= n /\ d = df v item).
Proof.
  funelim (find_loop df item n candidates found).
  - intros [= <-] d v H. now left.
  - intros Hl d v Hin.
    match goal with
    | IH : forall l, _ = Ok l -> _ |- _ =>
        destruct (IH _ Hl d v Hin) as [Hf|Hf]; [|now right]
    end.
    destruct (Z.leb_spec (df candidate item) n) as [L|L]; [|now left].
    apply in_app_or in Hf. destruct Hf as [Hf|[[= <- <-]|[]]];
      [now left | right; now split].
  - discriminate.
Qed.

(** On keys written by [str], the generator of [find] selects the children
    whose key lies between [lower] and [upper]. *)
Lemma select_children_ok (kz : node -> Z) (lower upper : Z)
    (children : dict node) :
  (forall k c, In (k, c) children -> k = str (kz c)) ->
  select_children lower upper children
  = Ok (map snd (filter (fun kc => (lower <=? kz (snd kc))
                                   && (kz (snd kc) <=? upper)) children)).
Proof.
  induction children as [|[k c] rest IH]; intros Hkeys; [reflexivity|].
  simpl. rewrite (Hkeys k c (or_introl eq_refl)), int_str.
  rewrite IH by (intros; apply Hkeys; now right).
  now destruct ((lower <=? kz c) && (kz c <=? upper)).
Qed.

Lemma extension_ok (kz : node -> Z) (distance n : Z) (children : dict node) :
  (forall k c, In (k, c) children -> k = str (kz c)) ->
  extension children distance n
  = Ok (map snd (filter (fun kc => (distance - n <=? kz (snd kc))
                                   && (kz (snd kc) <=? distance + n))
                        children)).
Proof.
  intros Hkeys. unfold extension. destruct children; [reflexivity|].
  now apply select_children_ok.
Qed.

Lemma flat_map_selected {B} (g : node -> list B) (P : string * node -> bool)
    (children : dict node) :
  flat_map g (map snd (filter P children))
  = flat_map (fun kc => if P kc then g (snd kc) else []) children.
Proof.
  induction children as [|kc rest IH]; [reflexivity|].
  simpl. destruct (P kc); simpl; now rewrite IH.
Qed.

Hypothesis df_sym : forall a b, df a b = df b a.

(** On trees of the shape [add_word] builds the loop of [find] ends without
    an exception and records what [rec] returns for each queued node. *)
Lemma find_loop_exact (item : string) (n : Z) (candidates : list node)
    (found : list (Z * string)) :
  Forall (bk_inv df) candidates ->
  exists l,
    find_loop df item n candidates found = Ok l
    /\ Permutation l (found ++ flat_map (rec df item n) candidates).
Proof.
  funelim (find_loop df item n candidates found); intros Hinv.
  - exists found. split; [reflexivity|]. simpl. now rewrite app_nil_r.
  - inversion Hinv as [|? ? Hnode Hrest]; subst.
    inversion Hnode as [? ? Huniq Hsub Hkey]; subst.
    assert (Hkeys : forall k c, In (k, c) children ->
                                k = str (df (node_value c) candidate))
      by (intros k c Hc; apply (Hkey k c _ Hc), node_value_stored).
    match goal with
    | E : extension _ _ _ = Ok ?m |- _ =>
        assert (Hext : extension children (df candidate item) n = Ok m)
          by exact E
    end.
    rewrite (extension_ok _ _ _ _ Hkeys) in Hext. injection Hext as Hext.
    match goal with
    | IH : Forall _ _ -> exists l, _ |- _ => destruct IH as (l & Hl & Hp)
    end.
    { apply Forall_app. split; [exact Hrest|]. rewrite <- Hext.
      apply Forall_forall. intros c Hc. apply in_map_iff in Hc.
      destruct Hc as ([k c'] & <- & Hc). apply filter_In in Hc.
      apply (Hsub k c'), Hc. }
    exists l. split; [exact Hl|].
    rewrite Hp. cbn [flat_map]. rewrite rec_eq. cbn zeta.
    rewrite flat_map_app, (df_sym candidate item).
    rewrite (lookup_flat_map (rec df item n)
               (fun c => df (node_value c) candidate) children
               _ (NoDup_range _ _) Huniq Hkeys).
    rewrite (df_sym candidate item) in Hext.
    rewrite <- Hext, flat_map_selected.
    set (self := if df item candidate <=? n
                 then [(df item candidate, candidate)] else []).
    replace (if df item candidate <=? n
             then found ++ [(df item candidate, candidate)] else found)
      with (found ++ self)
      by (unfold self; destruct (df item candidate <=? n);
          [reflexivity | apply app_nil_r]).
    rewrite <- !app_assoc. do 2 apply Permutation_app_head.
    rewrite Permutation_app_comm. apply Permutation_app_tail.
    apply flat_map_pointwise. intros [k c] Hc. cbn [snd].
    destruct (in_dec Z.eq_dec _ _) as [Hin|Hout];
      rewrite in_range in *;
      destruct (Z.leb_spec (df item candidate - n) (df (node_value c) candidate));
      destruct (Z.leb_spec (df (node_value c) candidate) (df item candidate + n));
      simpl; try reflexivity; lia.
  - inversion Hinv as [|? ? Hnode Hrest]; subst.
    inversion Hnode as [? ? Huniq Hsub Hkey]; subst.
    match goal with
    | E : extension _ _ _ = Raise ?x |- _ =>
        assert (Hext : extension children (df candidate item) n = Raise x)
          by exact E
    end.
    rewrite (extension_ok (fun c => df (node_value c) candidate)) in Hext;
      [discriminate|].
    intros k c Hc. apply (Hkey k c _ Hc), node_value_stored.
Qed.

End FindFacts.

Section FindMethod.

(** On a non-empty tree of the shape [add_word] builds, under a symmetric
    distance, [find] and [query] return the same results up to order, each
    in ascending order of distance. *)
Lemma find_query_same (self : BKTree) (root : node) (word : string) (n : Z) :
  (forall a b, distance_func self a b = distance_func self b a) ->
  tree self = Some root ->
  bk_inv (distance_func self) root ->
  exists lq lf,
    result (query word n) self = Ok lq
    /\ result (find word n) self = Ok lf
    /\ Permutation lq lf
    /\ ascending lq /\ ascending lf.
Proof.
  intros Hsym Ht Hinv.
  destruct (find_loop_exact (distance_func self) Hsym word n [root] [])
    as (l & Hl & Hp); [now constructor|].
  exists (sorted (rec (distance_func self) word n root)), (sort_by_item0 l).
  rewrite query_result, find_result, Ht, Hl.
  repeat split.
  - rewrite sorted_perm, sort_by_item0_perm, Hp. simpl.
    now rewrite app_nil_r.
  - apply sorted_ascending.
  - apply sort_by_item0_ascending.
Qed.

End FindMethod.

(** * Saving and loading *)

Section PersistFacts.

Lemma loads_node_eq (value : string) (members : list (string * json)) :
  loads_node (JArray [JString value; JObject members])
  = option_map (Node value) (fill_dict members []).
Proof. reflexivity. Qed.

Lemma fill_dict_dumps (children : dict node) : forall d : dict node,
  (forall k c, In (k, c) children -> loads_node (dumps_node c) = Some c) ->
  NoDup (dict_keys d ++ dict_keys children) ->
  fill_dict (map (fun kc => (fst kc, dumps_node (snd kc))) children) d
  = Some (d ++ children).
Proof.
  induction children as [|[k c] rest IH]; intros d Hload Hnd.
  - simpl. now rewrite app_nil_r.
  - simpl. rewrite (Hload k c (or_introl eq_refl)).
    assert (Hk : ~ In k (dict_keys d)).
    { simpl in Hnd. apply NoDup_remove_2 in Hnd.
      intros H. apply Hnd, in_or_app. now left. }
    rewrite dict_set_new by now apply dict_get_none.
    rewrite IH.
    + now rewrite <- app_assoc.
    + intros k' c' H'. apply (Hload k' c'). now right.
    + unfold dict_keys in *. rewrite map_app. simpl in *.
      now rewrite <- app_assoc.
Qed.

(** Reading back what [json.dumps] wrote for a node gives the node. *)
Lemma loads_dumps_node (nd : node) :
  dicts_ok nd -> loads_node (dumps_node nd) = Some nd.
Proof.
  induction 1 as [value children Huniq _ IH].
  cbn [dumps_node]. rewrite loads_node_eq.
  rewrite (fill_dict_dumps children []); [reflexivity | exact IH | exact Huniq].
Qed.

Lemma loads_dumps (t : option node) :
  match t with Some root => dicts_ok root | None => True end ->
  loads (dumps t) = Some t.
Proof.
  destruct t as [root|]; [|reflexivity]. intros Hok.
  unfold dumps, loads. rewrite (loads_dumps_node root Hok).
  now destruct root.
Qed.

Lemma bk_inv_dicts_ok (df : string -> string -> Z) (nd : node) :
  bk_inv df nd -> dicts_ok nd.
Proof. induction 1; now constructor. Qed.

Lemma built_tree_ok (self : BKTree) : built self -> tree_ok self.
Proof.
  intros H. apply built_tree_inv in H. unfold tree_inv, tree_ok in *.
  destruct (tree self); [|exact I]. eapply bk_inv_dicts_ok, H.
Qed.

Lemma resolve_write_file (fs : filesystem) (p : string) (c : file_content)
    (file_path : option string) :
  resolve (write_file fs p c) file_path = resolve fs file_path.
Proof. reflexivity. Qed.

Lemma save_to_file_eq (file_path : option string) (self : BKTree)
    (fs : filesystem) :
  writable fs (resolve fs file_path) = true ->
  save_to_file file_path (self, fs)
  = (Ok tt, (self, write_file fs (resolve fs file_path)
                              (JsonText (dumps (tree self))))).
Proof.
  intros Hw. unfold save_to_file. rewrite bind_get.
  cbn zeta. now rewrite Hw.
Qed.

(** Loading the file just saved from [self] into any object with the same
    distance function gives [self] back. *)
Lemma load_saved (file_path : option string) (self : BKTree)
    (fs : filesystem) (t0 : option node) :
  tree_ok self ->
  let fs' := write_file fs (resolve fs file_path)
                        (JsonText (dumps (tree self))) in
  load_from_file file_path (mkBKTree (distance_func self) t0, fs')
  = (Ok tt, (self, fs')).
Proof.
  intros Hok fs'. unfold load_from_file. rewrite bind_get.
  cbn zeta. unfold fs' at 1 2. rewrite resolve_write_file.
  cbn [files write_file]. rewrite String.eqb_refl.
  rewrite loads_dumps by exact Hok.
  now destruct self.
Qed.

End PersistFacts.

(** * Stored words and sub-nodes *)

Section StoredFacts.

Lemma within_perm (df : string -> string -> Z) (word : string) (n : Z)
    (a b : list string) :
  Permutation a b -> Permutation (within df word n a) (within df word n b).
Proof.
  unfold within. induction 1 as [|x a b _ IH|x y a|a b c _ IH1 _ IH2]; simpl.
  - reflexivity.
  - destruct (df word x <=? n); [now constructor | exact IH].
  - destruct (df word x <=? n), (df word y <=? n);
      try reflexivity; apply perm_swap.
  - now rewrite IH1.
Qed.

Lemma add_word_stored_words (word : string) (self : BKTree) :
  Permutation (stored_words (after (add_word word) self))
              (word :: stored_words self).
Proof.
  unfold stored_words. rewrite add_word_after. simpl.
  destruct (tree self) as [root|]; [|reflexivity].
  apply add_word_loop_values.
Qed.

Lemma fold_add_word_stored_words (ws : list string) (self : BKTree) :
  Permutation
    (stored_words (fold_left (fun s w => after (add_word w) s) ws self))
    (stored_words self ++ ws).
Proof.
  revert self. induction ws as [|w ws IH]; intros self; simpl.
  - now rewrite app_nil_r.
  - rewrite IH, add_word_stored_words. simpl.
    apply Permutation_middle.
Qed.

(** The constructor stores every word it is given. *)
Lemma init_stored_words (df : string -> string -> Z) (ws : list string)
    (self : BKTree) :
  init df (Some (WordList ws)) = Ok self ->
  Permutation (stored_words self) ws.
Proof.
  rewrite init_eq. destruct ws as [|root it]; intros [= <-]; [reflexivity|].
  rewrite fold_add_word_stored_words. reflexivity.
Qed.

Lemma add_word_changes (word : string) (self : BKTree) :
  after (add_word word) self <> self.
Proof.
  intros E. pose proof (add_word_stored_words word self) as P.
  rewrite E in P. apply Permutation_length in P. simpl in P. lia.
Qed.

(** The shape invariant holds at every node of the tree. *)
Lemma bk_inv_nodes (df : string -> string -> Z) (root N : node) :
  bk_inv df root -> In N (nodes root) -> bk_inv df N.
Proof.
  induction root as [value children IH] using node_induction.
  intros Hinv HN. simpl in HN. destruct HN as [<-|HN]; [exact Hinv|].
  inversion Hinv as [? ? _ Hsub _]; subst.
  apply in_flat_map in HN. destruct HN as ([k c] & Hc & HN).
  exact (IH k c Hc (Hsub k c Hc) HN).
Qed.

(** The object after a run of [add_word] calls, field by field. *)
Lemma fold_add_word_eq (ws : list string) (self : BKTree) :
  fold_left (fun s w => after (add_word w) s) ws self
  = mkBKTree (distance_func self)
      (fold_left
         (fun t w =>
            Some match t with
                 | None => Node w []
                 | Some nd => add_word_loop (distance_func self) w nd
                 end) ws (tree self)).
Proof.
  revert self. induction ws as [|w ws IH]; intros self; simpl.
  - now destruct self.
  - rewrite IH, add_word_after. reflexivity.
Qed.

Lemma discrete_metric : metric discrete.
Proof.
  unfold discrete. constructor.
  - intros a b. destruct (String.eqb a b); lia.
  - intros a. now rewrite String.eqb_refl.
  - intros a b. now rewrite String.eqb_sym.
  - intros a b c.
    destruct (String.eqb_spec a c), (String.eqb_spec a b),
      (String.eqb_spec b c); try lia; congruence.
Qed.

End StoredFacts.

(** * The properties of the specification *)

Section Examples.

Lemma two_words_built : built two_words.
Proof.
  apply (built_init discrete (Some (WordList ["book"; "cook"]))).
  reflexivity.
Qed.

Lemma book_tree_init :
  init levenshtein (Some (WordList book_words)) = Ok book_tree.
Proof.
  rewrite init_eq. unfold book_words, book_tree.
  rewrite fold_add_word_eq. cbn [distance_func tree].
  do 2 f_equal; vm_compute; reflexivity.
Qed.

Lemma book_tree_built : built book_tree.
Proof. exact (built_init _ _ _ book_tree_init). Qed.

End Examples.

(** * The walk of [add_word], and the copies of a word *)

Section WalkFacts.

Variable df : string -> string -> Z.

Lemma add_word_loop_added (word : string) (nd : node) :
  added df word nd (add_word_loop df word nd).
Proof.
  induction nd as [parent children IH] using node_induction.
  rewrite add_word_loop_eq. cbn zeta.
  destruct (dict_get children (str (df word parent))) as [child|] eqn:G.
  - apply added_below with child; [exact G|].
    apply (IH (str (df word parent)) child). now apply dict_get_some.
  - rewrite (dict_set_new children _ _ G). now apply added_here.
Qed.

Lemma added_unique (word : string) (nd r1 r2 : node) :
  added df word nd r1 -> added df word nd r2 -> r1 = r2.
Proof.
  intros H1. revert r2.
  induction H1 as [parent children G|parent children child child' G H IH];
    intros r2 H2; inversion H2 as [? ? G2|? ? c2 c2' G2 H2']; subst;
    try congruence.
  rewrite G in G2. injection G2 as <-.
  now rewrite (IH c2' H2').
Qed.





End WalkFacts.

Section Claims.

(** C1. Completeness of the pruned search: in an object built with a
    metric, every stored word [s] with [distance(w, s) <= n] comes back from
    [query(w, n)], paired with its distance; the pruning to the keys in
    [d - n .. d + n] drops no match. *)
Theorem query_complete (self : BKTree) (s w : string) (n : Z) :
  built self ->
  metric (distance_func self) ->
  In s (stored_words self) ->
  distance_func self w s <= n ->
  exists l,
    result (query w n) self = Ok l
    /\ In (distance_func self w s, s) l.
Proof.
  intros Hb Hm Hs Hn.
  pose proof (built_tree_inv self Hb) as Hinv.
  unfold tree_inv, stored_words in *.
  destruct (tree self) as [root|] eqn:Ht; [|destruct Hs].
  destruct (query_exact self root w n (metric_sym _ Hm)
              (metric_triangle _ Hm) Ht Hinv) as (l & Hl & Hp & _).
  exists l. split; [exact Hl|].
  apply (Permutation_in _ (Permutation_sym Hp)).
  apply within_in. auto.
Qed.

Lemma query_complete_witness :
  exists l,
    result (query "cook" 1) two_words = Ok l
    /\ In (distance_func two_words "cook" "book", "book") l.
Proof.
  apply (query_complete two_words "book" "cook" 1).
  - exact two_words_built.
  - exact discrete_metric.
  - simpl. auto.
  - vm_compute. discriminate.
Defined.

(** C2, as the claim states it, fails for [find]: in
    [BKTree(levenshtein, ["bbacc"])], [find("aabba", 4)] returns
    [(4, "bbacc")], and the distance of the item to that word is
    [levenshtein("aabba", "bbacc") = 5]: neither [d] nor at most [n]. *)
Lemma find_distance_is_reversed :
  init levenshtein (Some (WordList ["bbacc"])) = Ok one_word
  /\ result (find "aabba" 4) one_word = Ok [(4, "bbacc")]
  /\ levenshtein "aabba" "bbacc" = 5
  /\ ~ (forall (self : BKTree) (w : string) (n : Z) (l : list (Z * string))
               (d : Z) (v : string),
          result (find w n) self = Ok l -> In (d, v) l ->
          d <= n /\ d = distance_func self w v).
Proof.
  assert (Hf : result (find "aabba" 4) one_word = Ok [(4, "bbacc")])
    by (vm_compute; reflexivity).
  assert (Hl : levenshtein "aabba" "bbacc" = 5) by (vm_compute; reflexivity).
  split; [reflexivity|]. split; [exact Hf|]. split; [exact Hl|].
  intros H.
  destruct (H one_word "aabba" 4 _ 4 "bbacc" Hf (or_introl eq_refl))
    as [_ E].
  cbn [distance_func one_word] in E. rewrite Hl in E. discriminate.
Qed.

(** C2, amended.  Every pair [(d, value)] that [query(w, n)] returns has
    [d <= n] and [d = distance_func(w, value)]; every pair that
    [find(w, n)] returns has [d <= n] and [d = distance_func(value, w)],
    the arguments in the order [find] passes them, which is the distance
    between [w] and [value] whenever the distance function is symmetric. *)
Theorem query_find_sound_as_computed (self : BKTree) (w : string) (n : Z)
    (l : list (Z * string)) (d : Z) (v : string) :
  In (d, v) l ->
  (result (query w n) self = Ok l ->
   d <= n /\ d = distance_func self w v)
  /\ (result (find w n) self = Ok l ->
      d <= n /\ d = distance_func self v w
      /\ ((forall a b, distance_func self a b = distance_func self b a) ->
          d = distance_func self w v)).
Proof.
  intros Hin. split.
  - intros Hq. rewrite query_result in Hq.
    destruct (tree self) as [root|]; [|discriminate].
    injection Hq as <-.
    apply (Permutation_in _ (sorted_perm _)) in Hin.
    apply rec_sound in Hin. tauto.
  - intros Hf. rewrite find_result in Hf.
    destruct (tree self) as [root|].
    + destruct (find_loop (distance_func self) w n [root] [])
        as [found|e] eqn:E; [|discriminate].
      injection Hf as <-.
      apply (Permutation_in _ (sort_by_item0_perm _)) in Hin.
      destruct (find_loop_sound _ _ _ _ _ _ E d v Hin) as [[]|[Hn Hd]].
      split; [exact Hn|]. split; [exact Hd|].
      intros Hsym. now rewrite Hsym.
    + injection Hf as <-. destruct Hin.
Qed.

Lemma query_find_sound_as_computed_witness :
  (0 <= 0 /\ 0 = distance_func one_word "bbacc" "bbacc")
  /\ (4 <= 4 /\ 4 = distance_func one_word "bbacc" "aabba").
Proof.
  split.
  - apply (query_find_sound_as_computed one_word "bbacc" 0 [(0, "bbacc")]
             0 "bbacc").
    + simpl. auto.
    + vm_compute. reflexivity.
  - destruct (query_find_sound_as_computed one_word "aabba" 4 [(4, "bbacc")]
                4 "bbacc") as [_ Hfind].
    + simpl. auto.
    + destruct Hfind as (Hn & Hd & _).
      * vm_compute. reflexivity.
      * split; [exact Hn | exact Hd].
Defined.

(** C3. On an empty tree, which the constructor without words gives,
    [find] returns the empty list and [query] raises [TypeError]: the two
    do not agree there. *)
Theorem query_raises_on_empty_tree (df : string -> string -> Z)
    (w : string) (n : Z) :
  init df None = Ok (mkBKTree df None)
  /\ result (find w n) (mkBKTree df None) = Ok []
  /\ result (query w n) (mkBKTree df None) = Raise TypeError.
Proof. repeat split. Qed.

(** C4, as the claim states it, fails: with ["book"] at the root and
    ["books"] under key ["1"], adding ["cook"] finds key ["1"] taken and
    still stores the word, below ["books"]. *)
Lemma add_word_collision_not_dropped :
  dict_get [("1", Node "books" [])] (str (levenshtein "cook" "book"))
  = Some (Node "books" [])
  /\ tree (after (add_word "cook") book_books)
     = Some (Node "book" [("1", Node "books" [("2", Node "cook" [])])])
  /\ after (add_word "cook") book_books <> book_books.
Proof.
  split; [vm_compute; reflexivity|]. split.
  - rewrite add_word_after. cbn [tree distance_func book_books].
    vm_compute. reflexivity.
  - apply add_word_changes.
Qed.

(** C4, amended.  [add_word] on a non-empty tree walks as [added] says:
    at a node whose key [str(distance_func(word, node word))] is taken it
    goes on in the child stored there, and every other entry of the dict
    stays as it is; at the first node where that key is free it stores the
    leaf [(word, {})] under the key, as the last entry, and stops.  One
    tree only satisfies this.  The word is stored in every case: the tree
    gains one node, holding the word, and keeps every other word. *)
Theorem add_word_stores_at_first_free_key (self : BKTree) (root : node)
    (word : string) :
  tree self = Some root ->
  exists root',
    tree (after (add_word word) self) = Some root'
    /\ added (distance_func self) word root root'
    /\ (forall r, added (distance_func self) word root r -> r = root')
    /\ Permutation (values root') (word :: values root)
    /\ after (add_word word) self <> self.
Proof.
  intros Ht.
  exists (add_word_loop (distance_func self) word root).
  split; [now rewrite add_word_after, Ht|].
  split; [apply add_word_loop_added|]. split; [|split].
  - intros r Hr. exact (added_unique _ _ _ _ _ Hr (add_word_loop_added _ _ _)).
  - apply add_word_loop_values.
  - apply add_word_changes.
Qed.

Lemma add_word_stores_at_first_free_key_witness :
  exists root',
    tree (after (add_word "cook") book_books) = Some root'
    /\ added levenshtein "cook" (Node "book" [("1", Node "books" [])]) root'
    /\ (forall r, added levenshtein "cook"
                    (Node "book" [("1", Node "books" [])]) r -> r = root')
    /\ Permutation (values root') ["cook"; "book"; "books"]
    /\ after (add_word "cook") book_books <> book_books.
Proof.
  apply (add_word_stores_at_first_free_key book_books
           (Node "book" [("1", Node "books" [])]) "cook").
  reflexivity.
Defined.

(** C5. Child-key invariant: in every object reached from the constructor
    by [add_word], [query] and [find] calls, under a symmetric distance, a
    child [C] stored at a node [N] has the key
    [str(distance(N.value, C.value))], which [int] reads back as that
    distance. *)
Theorem child_key_invariant (self : BKTree) (root N C : node) (k : string) :
  built self ->
  (forall a b, distance_func self a b = distance_func self b a) ->
  tree self = Some root ->
  In N (nodes root) ->
  In (k, C) (node_children N) ->
  k = str (distance_func self (node_value N) (node_value C))
  /\ int k = Ok (distance_func self (node_value N) (node_value C)).
Proof.
  intros Hb Hsym Ht HN HC.
  pose proof (built_tree_inv self Hb) as Hinv.
  unfold tree_inv in Hinv. rewrite Ht in Hinv.
  pose proof (bk_inv_nodes _ _ _ Hinv HN) as HNinv.
  inversion HNinv as [value children _ _ Hkey]; subst.
  cbn [node_children node_value] in *.
  assert (E : k = str (distance_func self value (node_value C))).
  { rewrite (Hkey k C (node_value C) HC (node_value_stored C)).
    now rewrite Hsym. }
  split; [exact E|]. rewrite E. apply int_str.
Qed.

Lemma child_key_invariant_witness :
  "1" = str (distance_func two_words "book" "cook")
  /\ int "1" = Ok (distance_func two_words "book" "cook").
Proof.
  apply (child_key_invariant two_words
           (Node "book" [("1", Node "cook" [])])
           (Node "book" [("1", Node "cook" [])]) (Node "cook" []) "1").
  - exact two_words_built.
  - exact (metric_sym _ discrete_metric).
  - reflexivity.
  - simpl. auto.
  - simpl. auto.
Defined.

(** C6. Known values of [levenshtein], and the base case: when either
    string is empty the result is the length of the other. *)
Theorem levenshtein_known_values :
  levenshtein "kitten" "sitting" = 3
  /\ levenshtein "" "abc" = 3
  /\ levenshtein "abc" "abc" = 0
  /\ (forall s, levenshtein s "" = len s)
  /\ (forall s, levenshtein "" s = len s).
Proof.
  repeat split; try (vm_compute; reflexivity).
  - intros s. unfold levenshtein, levenshtein_ordered, len. simpl.
    destruct (Z.ltb_spec (Z.of_nat (String.length s)) 0); [lia|reflexivity].
  - intros s. unfold levenshtein, levenshtein_ordered, len.
    destruct s as [|c s]; [reflexivity|].
    cbn [String.length].
    destruct (Z.ltb_spec (Z.of_nat 0) (Z.of_nat (S (String.length s))));
      [reflexivity|lia].
Qed.

(** Beyond the known values: the deletion step adds one to the row as it
    stood before the step, so a run of insertions in one row is not
    followed.  Here four edits would do (keep ["a"], insert ["QQ"], keep
    ["bcdef"], delete ["ZZ"]) and the function returns 5. *)
Example levenshtein_row_step_example :
  levenshtein "abcdefZZ" "aQQbcdef" = 5.
Proof. vm_compute. reflexivity. Qed.

(** C7. Round trip: saving a tree and loading the file into an object with
    the same distance function gives the same tree, so [query] and [find]
    answer as before; for the tree built from
    ["book", "books", "cook", "booze", "cake"] with [levenshtein],
    [query("book", 1)] is [(0, "book"), (1, "books"), (1, "cook")] before
    and after. *)
Theorem save_load_round_trip (fs : filesystem) (file_path : option string)
    (self : BKTree) (t0 : option node) :
  writable fs (resolve fs file_path) = true ->
  tree_ok self ->
  let saved := save_to_file file_path (self, fs) in
  let fresh := mkBKTree (distance_func self) t0 in
  let loaded := load_from_file file_path (fresh, snd (snd saved)) in
  fst saved = Ok tt
  /\ fst loaded = Ok tt
  /\ fst (snd loaded) = self
  /\ (forall w n,
        result (query w n) (fst (snd loaded)) = result (query w n) self
        /\ result (find w n) (fst (snd loaded)) = result (find w n) self)
  /\ (init levenshtein (Some (WordList book_words)) = Ok self ->
      result (query "book" 1) self
      = Ok [(0, "book"); (1, "books"); (1, "cook")]
      /\ result (query "book" 1) (fst (snd loaded))
         = Ok [(0, "book"); (1, "books"); (1, "cook")]).
Proof.
  intros Hw Hok saved fresh loaded.
  assert (Es : saved = (Ok tt, (self, write_file fs (resolve fs file_path)
                                         (JsonText (dumps (tree self))))))
    by (apply save_to_file_eq, Hw).
  assert (El : loaded = (Ok tt, (self, write_file fs (resolve fs file_path)
                                          (JsonText (dumps (tree self))))))
    by (unfold loaded, fresh; rewrite Es; cbn [snd]; now apply load_saved).
  rewrite Es, El. cbn [fst snd].
  split; [reflexivity|]. split; [reflexivity|]. split; [reflexivity|].
  split; [intros w n; split; reflexivity|].
  intros Hinit. rewrite book_tree_init in Hinit. injection Hinit as <-.
  split; vm_compute; reflexivity.
Qed.

Lemma save_load_round_trip_witness :
  let saved := save_to_file None (book_tree, empty_fs) in
  let loaded :=
    load_from_file None (mkBKTree levenshtein None, snd (snd saved)) in
  fst saved = Ok tt
  /\ fst loaded = Ok tt
  /\ fst (snd loaded) = book_tree
  /\ (forall w n,
        result (query w n) (fst (snd loaded)) = result (query w n) book_tree
        /\ result (find w n) (fst (snd loaded)) = result (find w n) book_tree)
  /\ (init levenshtein (Some (WordList book_words)) = Ok book_tree ->
      result (query "book" 1) book_tree
      = Ok [(0, "book"); (1, "books"); (1, "cook")]
      /\ result (query "book" 1) (fst (snd loaded))
         = Ok [(0, "book"); (1, "books"); (1, "cook")]).
Proof.
  apply (save_load_round_trip empty_fs None book_tree None).
  - reflexivity.
  - exact (built_tree_ok _ book_tree_built).
Defined.

(** C8. The constructor returns an empty tree for an empty list and for
    the default argument, and raises [StopIteration] for an iterator that
    yields nothing. *)
Theorem init_empty_iterator_raises (df : string -> string -> Z) :
  init df (Some (WordIter [])) = Raise StopIteration
  /\ init df (Some (WordList [])) = Ok (mkBKTree df None)
  /\ init df None = Ok (mkBKTree df None).
Proof. repeat split. Qed.

(** C9. Queries do not change the object: after [query] or [find], with
    any arguments and whether they return or raise, the object is the one
    before the call. *)
Theorem query_find_do_not_mutate (self : BKTree) (w : string) (n : Z) :
  after (query w n) self = self /\ after (find w n) self = self.
Proof. split; [apply query_after | apply find_after]. Qed.



End Claims.

(** * Further properties of the tree *)

Section MoreTreeFacts.

Lemma built_distance_func_add (self : BKTree) (word : string) :
  distance_func (after (add_word word) self) = distance_func self.
Proof. now rewrite add_word_after. Qed.

Lemma stored_words_tree (self : BKTree) (root : node) :
  tree self = Some root -> stored_words self = values root.
Proof. unfold stored_words. now intros ->. Qed.

(** [find] on a tree of the shape [add_word] builds: it returns, and what
    it returns is what [rec] returns, sorted by distance. *)
Lemma find_exact (self : BKTree) (item : string) (n : Z) :
  (forall a b, distance_func self a b = distance_func self b a) ->
  (forall a b c, distance_func self a c
                 <= distance_func self a b + distance_func self b c) ->
  tree_inv self ->
  exists l,
    result (find item n) self = Ok l
    /\ Permutation l (within (distance_func self) item n (stored_words self))
    /\ ascending l.
Proof.
  intros Hsym Htri Hinv. unfold tree_inv, stored_words in *.
  rewrite find_result.
  destruct (tree self) as [root|].
  - destruct (find_loop_exact (distance_func self) Hsym item n [root] [])
      as (l & Hl & Hp); [now constructor|].
    rewrite Hl. exists (sort_by_item0 l). split; [reflexivity|]. split.
    + rewrite sort_by_item0_perm, Hp. simpl. rewrite app_nil_r.
      now apply rec_exact.
    + apply sort_by_item0_ascending.
  - exists []. repeat split; constructor.
Qed.

(** The root word and the children already there survive [add_word]. *)
Lemma add_word_loop_keeps (df : string -> string -> Z) (word : string)
    (nd : node) :
  node_value (add_word_loop df word nd) = node_value nd
  /\ forall k c, In (k, c) (node_children nd) ->
       exists c', In (k, c') (node_children (add_word_loop df word nd))
                  /\ node_value c' = node_value c.
Proof.
  induction nd as [parent children IH] using node_induction.
  rewrite add_word_loop_eq. cbn zeta.
  destruct (dict_get children (str (df word parent))) as [child|] eqn:G;
    cbn [node_value node_children]; (split; [reflexivity|]); intros k c Hc.
  - destruct (dict_set_old children _ child (add_word_loop df word child) G)
      as (d1 & d2 & E1 & E2).
    rewrite E2. rewrite E1 in Hc.
    apply in_app_or in Hc. destruct Hc as [Hc|[Hc|Hc]].
    + exists c. split; [|reflexivity]. apply in_or_app. now left.
    + injection Hc as <- <-.
      exists (add_word_loop df word child). split.
      * apply in_or_app. right. now left.
      * apply (IH (str (df word parent)) child).
        now apply dict_get_some.
    + exists c. split; [|reflexivity]. apply in_or_app. right. now right.
  - rewrite (dict_set_new children _ _ G).
    exists c. split; [|reflexivity]. apply in_or_app. now left.
Qed.

(** With a radius below zero and distances that are not negative, [rec]
    finds nothing. *)
Lemma rec_negative_radius (df : string -> string -> Z) (word : string)
    (n : Z) (nd : node) :
  (forall a b, 0 <= df a b) -> n < 0 -> rec df word n nd = [].
Proof.
  intros Hpos Hn. destruct nd as [p_word children].
  rewrite rec_eq. cbn zeta.
  pose proof (Hpos word p_word).
  destruct (Z.leb_spec (df word p_word) n); [lia|].
  unfold range.
  replace (Z.to_nat (df word p_word + n + 1 - (df word p_word - n)))
    with O by lia.
  reflexivity.
Qed.

(** A key that [int] refuses makes the generator of [find] fail. *)
Lemma select_children_bad_key (lower upper : Z) (items : dict node)
    (k : string) (c : node) :
  In (k, c) items -> int k = Raise ValueError ->
  select_children lower upper items = Raise ValueError.
Proof.
  induction items as [|[k0 c0] rest IH]; intros Hin Hbad; [destruct Hin|].
  simpl. destruct Hin as [[= -> ->]|Hin].
  - now rewrite Hbad.
  - destruct (int k0) as [z|e] eqn:E.
    + now rewrite (IH Hin Hbad).
    + unfold int in E. destruct (match lstrip k0 with
                                 | EmptyString => _ | String _ _ => _ end);
        [discriminate | now injection E as <-].
Qed.

Lemma find_loop_one (df : string -> string -> Z) (item : string) (n : Z)
    (candidate : string) (children : dict node) (rest : list node)
    (found : list (Z * string)) :
  find_loop df item n (Node candidate children :: rest) found
  = match extension children (df candidate item) n with
    | Raise e => Raise e
    | Ok more =>
        find_loop df item n (rest ++ more)
          (if df candidate item <=? n
           then found ++ [(df candidate item, candidate)]
           else found)
    end.
Proof.
  rewrite find_loop_equation_2.
  destruct (inspect (extension children (df candidate item) n))
    as [[more|e] Heq]; cbn [find_loop_unfold_clause_2];
    rewrite Heq; reflexivity.
Qed.

End MoreTreeFacts.

Section MoreInitFacts.

Lemma init_distance_func (df : string -> string -> Z)
    (words : option words_arg) (self : BKTree) :
  init df words = Ok self -> distance_func self = df.
Proof.
  rewrite init_eq.
  destruct words as [[[|root it]|[|root it]]|]; intros [= <-];
    try reflexivity; now rewrite fold_add_word_eq.
Qed.

Lemma fold_add_word_root (ws : list string) (self : BKTree) (root : node) :
  tree self = Some root ->
  exists root',
    tree (fold_left (fun s w => after (add_word w) s) ws self) = Some root'
    /\ node_value root' = node_value root.
Proof.
  revert self root. induction ws as [|w ws IH]; intros self root Ht.
  - now exists root.
  - simpl.
    destruct (IH (after (add_word w) self)
                 (add_word_loop (distance_func self) w root))
      as (root' & Ht' & Hv).
    + now rewrite add_word_after, Ht.
    + exists root'. split; [exact Ht'|].
      rewrite Hv. apply add_word_loop_keeps.
Qed.

Lemma lev_pair_built : built lev_pair.
Proof.
  apply (built_init levenshtein (Some (WordList ["abcdZZ"; "abcd"]))).
  rewrite init_eq, fold_add_word_eq. unfold lev_pair.
  cbn [distance_func tree]. do 2 f_equal; vm_compute; reflexivity.
Qed.

End MoreInitFacts.

Section Extras.

(** X1. [query] is exact: on a non-empty tree built with a metric it
    returns the stored words within [n] of the word, each with its distance
    and once per node that holds it, in ascending order of distance. *)
Theorem query_returns_exactly_within (self : BKTree) (root : node)
    (w : string) (n : Z) :
  built self ->
  metric (distance_func self) ->
  tree self = Some root ->
  exists l,
    result (query w n) self = Ok l
    /\ Permutation l (within (distance_func self) w n (stored_words self))
    /\ ascending l.
Proof.
  intros Hb Hm Ht.
  pose proof (built_tree_inv self Hb) as Hinv.
  unfold tree_inv in Hinv. rewrite Ht in Hinv.
  rewrite (stored_words_tree self root Ht).
  exact (query_exact self root w n (metric_sym _ Hm) (metric_triangle _ Hm)
                     Ht Hinv).
Qed.

Lemma query_returns_exactly_within_witness :
  exists l,
    result (query "book" 0) two_words = Ok l
    /\ Permutation l (within discrete "book" 0 ["book"; "cook"])
    /\ ascending l.
Proof.
  apply (query_returns_exactly_within two_words
           (Node "book" [("1", Node "cook" [])]) "book" 0).
  - exact two_words_built.
  - exact discrete_metric.
  - reflexivity.
Defined.

(** X2. [find] is exact and does not raise: in any object built with a
    metric, empty or not, it returns the stored words within [n] of the
    item, each with its distance and once per node, in ascending order of
    distance. *)
Theorem find_returns_exactly_within (self : BKTree) (item : string) (n : Z) :
  built self ->
  metric (distance_func self) ->
  exists l,
    result (find item n) self = Ok l
    /\ Permutation l (within (distance_func self) item n (stored_words self))
    /\ ascending l.
Proof.
  intros Hb Hm.
  exact (find_exact self item n (metric_sym _ Hm) (metric_triangle _ Hm)
                    (built_tree_inv self Hb)).
Qed.

Lemma find_returns_exactly_within_witness :
  exists l,
    result (find "cook" 1) two_words = Ok l
    /\ Permutation l (within discrete "cook" 1 ["book"; "cook"])
    /\ ascending l.
Proof.
  apply (find_returns_exactly_within two_words "cook" 1).
  - exact two_words_built.
  - exact discrete_metric.
Defined.

(** X3. On a non-empty built tree with a symmetric distance (the triangle
    inequality is not needed) [query] and [find] both return, with the same
    pairs up to order, each list in ascending order of distance. *)
Theorem find_query_agree_nonempty (self : BKTree) (root : node)
    (word : string) (n : Z) :
  built self ->
  (forall a b, distance_func self a b = distance_func self b a) ->
  tree self = Some root ->
  exists lq lf,
    result (query word n) self = Ok lq
    /\ result (find word n) self = Ok lf
    /\ Permutation lq lf
    /\ ascending lq /\ ascending lf.
Proof.
  intros Hb Hsym Ht.
  pose proof (built_tree_inv self Hb) as Hinv.
  unfold tree_inv in Hinv. rewrite Ht in Hinv.
  exact (find_query_same self root word n Hsym Ht Hinv).
Qed.

Lemma find_query_agree_nonempty_witness :
  exists lq lf,
    result (query "book" 1) two_words = Ok lq
    /\ result (find "book" 1) two_words = Ok lf
    /\ Permutation lq lf
    /\ ascending lq /\ ascending lf.
Proof.
  apply (find_query_agree_nonempty two_words
           (Node "book" [("1", Node "cook" [])]) "book" 1).
  - exact two_words_built.
  - exact (metric_sym _ discrete_metric).
  - reflexivity.
Defined.

(** X4. The shape the search relies on: in every built object, at every
    node [N], the keys of the children dict are distinct, and every word
    stored anywhere below the child under key [k] has
    [k = str(distance_func(word, N.value))]. *)
Theorem descendant_keys_invariant (self : BKTree) (root N C : node)
    (k s : string) :
  built self ->
  tree self = Some root ->
  In N (nodes root) ->
  In (k, C) (node_children N) ->
  In s (values C) ->
  k = str (distance_func self s (node_value N))
  /\ dict_keys_unique (node_children N).
Proof.
  intros Hb Ht HN HC Hs.
  pose proof (built_tree_inv self Hb) as Hinv.
  unfold tree_inv in Hinv. rewrite Ht in Hinv.
  pose proof (bk_inv_nodes _ _ _ Hinv HN) as HNinv.
  inversion HNinv as [value children Huniq _ Hkey]; subst.
  cbn [node_children node_value] in *.
  split; [exact (Hkey k C s HC Hs) | exact Huniq].
Qed.

Lemma descendant_keys_invariant_witness :
  "1" = str (distance_func book_tree "cook" "book")
  /\ dict_keys_unique
       [("1", Node "books" [("2", Node "cook" [])]);
        ("2", Node "booze" []); ("4", Node "cake" [])].
Proof.
  apply (descendant_keys_invariant book_tree
           (Node "book"
              [("1", Node "books" [("2", Node "cook" [])]);
               ("2", Node "booze" []); ("4", Node "cake" [])])
           (Node "book"
              [("1", Node "books" [("2", Node "cook" [])]);
               ("2", Node "booze" []); ("4", Node "cake" [])])
           (Node "books" [("2", Node "cook" [])]) "1" "cook").
  - exact book_tree_built.
  - reflexivity.
  - simpl. auto.
  - simpl. auto.
  - simpl. auto.
Defined.

(** X5. Whenever the word source yields at least one word, the constructor
    returns: the first word is the root, the distance function is the one
    given, and the stored words are the words yielded, each as often as it
    was yielded. *)
Theorem init_nonempty_stores_words (df : string -> string -> Z)
    (words : words_arg) (first : string) (others : list string) :
  iter words = first :: others ->
  exists self children,
    init df (Some words) = Ok self
    /\ distance_func self = df
    /\ tree self = Some (Node first children)
    /\ Permutation (stored_words self) (first :: others).
Proof.
  intros Hit.
  set (self := fold_left (fun s w => after (add_word w) s) others
                         (mkBKTree df (Some (Node first [])))).
  assert (Hinit : init df (Some words) = Ok self)
    by (rewrite init_eq; destruct words as [l|l]; simpl in Hit; now subst l).
  destruct (fold_add_word_root others (mkBKTree df (Some (Node first [])))
              (Node first []) eq_refl) as ([v children] & Ht & Hv).
  fold self in Ht. cbn [node_value] in Hv. subst v.
  exists self, children. split; [exact Hinit|]. split; [|split].
  - exact (init_distance_func _ _ _ Hinit).
  - exact Ht.
  - unfold self. now rewrite fold_add_word_stored_words.
Qed.

Lemma init_nonempty_stores_words_witness :
  exists self children,
    init discrete (Some (WordIter ["book"; "cook"])) = Ok self
    /\ distance_func self = discrete
    /\ tree self = Some (Node "book" children)
    /\ Permutation (stored_words self) ["book"; "cook"].
Proof.
  apply (init_nonempty_stores_words discrete (WordIter ["book"; "cook"])).
  reflexivity.
Defined.

(** X6. [add_word] overwrites nothing: on a non-empty tree the root keeps
    its word, and every key of the root's children dict still leads to a
    child holding the same word as before. *)
Theorem add_word_never_overwrites (self : BKTree) (root : node)
    (word : string) :
  tree self = Some root ->
  exists root',
    tree (after (add_word word) self) = Some root'
    /\ node_value root' = node_value root
    /\ forall k c, In (k, c) (node_children root) ->
         exists c', In (k, c') (node_children root')
                    /\ node_value c' = node_value c.
Proof.
  intros Ht.
  exists (add_word_loop (distance_func self) word root).
  split; [now rewrite add_word_after, Ht|].
  apply add_word_loop_keeps.
Qed.

Lemma add_word_never_overwrites_witness :
  exists root',
    tree (after (add_word "cook") book_books) = Some root'
    /\ node_value root' = "book"
    /\ forall k c, In (k, c) [("1", Node "books" [])] ->
         exists c', In (k, c') (node_children root')
                    /\ node_value c' = node_value c.
Proof.
  apply (add_word_never_overwrites book_books
           (Node "book" [("1", Node "books" [])]) "cook").
  reflexivity.
Defined.

(** X7. Insert, then query: in a non-empty object built with a metric,
    after [add_word(x)] a query returns what it returned before, together
    with [(distance(w, x), x)] when that distance is within [n]. *)
Theorem add_word_then_query (self : BKTree) (root : node) (x w : string)
    (n : Z) :
  built self ->
  metric (distance_func self) ->
  tree self = Some root ->
  exists l l',
    result (query w n) self = Ok l
    /\ result (query w n) (after (add_word x) self) = Ok l'
    /\ Permutation l' (within (distance_func self) w n [x] ++ l).
Proof.
  intros Hb Hm Ht.
  pose proof (built_tree_inv self Hb) as Hinv.
  pose proof (built_tree_inv _ (built_add_word self x Hb)) as Hinv'.
  pose proof (add_word_stored_words x self) as Hperm.
  pose proof (built_distance_func_add self x) as Hdf.
  set (self' := after (add_word x) self) in *.
  unfold tree_inv in Hinv, Hinv'. rewrite Ht in Hinv.
  assert (Ht' : tree self'
                = Some (add_word_loop (distance_func self) x root))
    by (unfold self'; now rewrite add_word_after, Ht).
  rewrite Ht', Hdf in Hinv'.
  destruct (query_exact self root w n (metric_sym _ Hm)
              (metric_triangle _ Hm) Ht Hinv) as (l & Hl & Hp & _).
  destruct (query_exact self' (add_word_loop (distance_func self) x root)
              w n) as (l' & Hl' & Hp' & _);
    try rewrite Hdf;
    [exact (metric_sym _ Hm) | exact (metric_triangle _ Hm)
     | exact Ht' | exact Hinv' |].
  rewrite Hdf in Hp'.
  exists l, l'. split; [exact Hl|]. split; [exact Hl'|].
  rewrite Hp', Hp.
  rewrite <- (stored_words_tree self' _ Ht'),
          <- (stored_words_tree self root Ht).
  rewrite (within_perm _ _ _ _ _ Hperm).
  change (x :: stored_words self) with ([x] ++ stored_words self).
  now rewrite within_app.
Qed.

Lemma add_word_then_query_witness :
  exists l l',
    result (query "cook" 1) two_words = Ok l
    /\ result (query "cook" 1) (after (add_word "rook") two_words) = Ok l'
    /\ Permutation l' (within discrete "cook" 1 ["rook"] ++ l).
Proof.
  apply (add_word_then_query two_words
           (Node "book" [("1", Node "cook" [])]) "rook" "cook" 1).
  - exact two_words_built.
  - exact discrete_metric.
  - reflexivity.
Defined.

(** X8. The order of insertion changes the shape of the tree, not the
    answers: two objects constructed with one metric from the same words in
    different orders give the same pairs, up to order, for every [find]
    and, when there are words at all, for every [query]. *)
Theorem insertion_order_irrelevant (df : string -> string -> Z)
    (ws1 ws2 : list string) (t1 t2 : BKTree) (w : string) (n : Z) :
  metric df ->
  Permutation ws1 ws2 ->
  init df (Some (WordList ws1)) = Ok t1 ->
  init df (Some (WordList ws2)) = Ok t2 ->
  (exists l1 l2,
     result (find w n) t1 = Ok l1 /\ result (find w n) t2 = Ok l2
     /\ Permutation l1 l2)
  /\ (ws1 <> [] ->
      exists l1 l2,
        result (query w n) t1 = Ok l1 /\ result (query w n) t2 = Ok l2
        /\ Permutation l1 l2).
Proof.
  intros Hm Hperm H1 H2.
  pose proof (init_distance_func _ _ _ H1) as D1.
  pose proof (init_distance_func _ _ _ H2) as D2.
  pose proof (built_tree_inv _ (built_init _ _ _ H1)) as I1.
  pose proof (built_tree_inv _ (built_init _ _ _ H2)) as I2.
  pose proof (init_stored_words _ _ _ H1) as S1.
  pose proof (init_stored_words _ _ _ H2) as S2.
  assert (Hsame : Permutation (within df w n (stored_words t1))
                              (within df w n (stored_words t2)))
    by (apply within_perm; now rewrite S1, S2).
  split.
  - destruct (find_exact t1 w n) as (l1 & R1 & P1 & _);
      try rewrite D1; try apply Hm; [exact I1|].
    destruct (find_exact t2 w n) as (l2 & R2 & P2 & _);
      try rewrite D2; try apply Hm; [exact I2|].
    rewrite D1 in P1. rewrite D2 in P2.
    exists l1, l2. split; [exact R1|]. split; [exact R2|].
    now rewrite P1, P2.
  - intros Hne.
    unfold tree_inv in I1, I2. unfold stored_words in S1, S2, Hsame.
    destruct (tree t1) as [r1|] eqn:T1.
    2:{ apply Permutation_nil in S1. contradiction. }
    destruct (tree t2) as [r2|] eqn:T2.
    2:{ apply Permutation_nil in S2. subst ws2.
        apply Permutation_sym, Permutation_nil in Hperm. contradiction. }
    rewrite D1 in I1. rewrite D2 in I2.
    destruct (query_exact t1 r1 w n) as (l1 & R1 & P1 & _);
      try rewrite D1; try apply Hm; [exact T1 | exact I1 |].
    destruct (query_exact t2 r2 w n) as (l2 & R2 & P2 & _);
      try rewrite D2; try apply Hm; [exact T2 | exact I2 |].
    rewrite D1 in P1. rewrite D2 in P2.
    exists l1, l2. split; [exact R1|]. split; [exact R2|].
    now rewrite P1, P2.
Qed.

Lemma insertion_order_irrelevant_witness :
  (exists l1 l2,
     result (find "cook" 1) two_words = Ok l1
     /\ result (find "cook" 1)
          (mkBKTree discrete (Some (Node "cook" [("1", Node "book" [])])))
        = Ok l2
     /\ Permutation l1 l2)
  /\ (["book"; "cook"] <> [] ->
      exists l1 l2,
        result (query "cook" 1) two_words = Ok l1
        /\ result (query "cook" 1)
             (mkBKTree discrete (Some (Node "cook" [("1", Node "book" [])])))
           = Ok l2
        /\ Permutation l1 l2).
Proof.
  apply (insertion_order_irrelevant discrete ["book"; "cook"]
           ["cook"; "book"] two_words
           (mkBKTree discrete (Some (Node "cook" [("1", Node "book" [])])))
           "cook" 1).
  - exact discrete_metric.
  - apply perm_swap.
  - reflexivity.
  - reflexivity.
Defined.

(** X9. A radius below zero finds nothing: when distances are never
    negative, [find] returns the empty list in every built object, and so
    does [query] on every built object that is not empty. *)
Theorem negative_radius_finds_nothing (self : BKTree) (w : string) (n : Z) :
  built self ->
  (forall a b, 0 <= distance_func self a b) ->
  n < 0 ->
  result (find w n) self = Ok []
  /\ (forall root, tree self = Some root -> result (query w n) self = Ok []).
Proof.
  intros Hb Hpos Hn. split.
  - pose proof (built_tree_inv self Hb) as Hinv. unfold tree_inv in Hinv.
    rewrite find_result. destruct (tree self) as [[v children]|]; [|reflexivity].
    inversion Hinv as [? ? _ _ Hkey]; subst.
    rewrite find_loop_one.
    rewrite (extension_ok (fun c => distance_func self (node_value c) v)).
    2:{ intros k c Hc. apply (Hkey k c _ Hc), node_value_stored. }
    pose proof (Hpos v w).
    replace (filter _ children) with (@nil (string * node)).
    + simpl. rewrite find_loop_equation_1.
      destruct (Z.leb_spec (distance_func self v w) n); [lia|reflexivity].
    + symmetry. clear Hkey Hinv. induction children as [|kc rest IH];
        [reflexivity|]. simpl. rewrite IH.
      destruct (Z.leb_spec (distance_func self v w - n)
                  (distance_func self (node_value (snd kc)) v));
        destruct (Z.leb_spec (distance_func self (node_value (snd kc)) v)
                    (distance_func self v w + n));
        simpl; try reflexivity; lia.
  - intros root Ht. rewrite query_result, Ht.
    now rewrite rec_negative_radius.
Qed.

Lemma negative_radius_finds_nothing_witness :
  result (find "book" (-1)) two_words = Ok []
  /\ (forall root, tree two_words = Some root ->
                   result (query "book" (-1)) two_words = Ok []).
Proof.
  apply (negative_radius_finds_nothing two_words "book" (-1)).
  - exact two_words_built.
  - exact (metric_nonneg _ discrete_metric).
  - lia.
Defined.

(** X10. Keys that are no integer literals, which only a loaded file can
    bring in: when the root has a child under such a key, [find] raises
    [ValueError] for every item and radius, while [query] returns. *)
Theorem find_raises_on_non_integer_key (self : BKTree) (root c : node)
    (k item : string) (n : Z) :
  tree self = Some root ->
  In (k, c) (node_children root) ->
  int k = Raise ValueError ->
  result (find item n) self = Raise ValueError
  /\ exists l, result (query item n) self = Ok l.
Proof.
  intros Ht Hc Hbad. split.
  - rewrite find_result, Ht. destruct root as [v children].
    cbn [node_children] in Hc. rewrite find_loop_one.
    unfold extension. destruct children as [|kc rest]; [destruct Hc|].
    now rewrite (select_children_bad_key _ _ _ k c Hc Hbad).
  - rewrite query_result, Ht. eexists. reflexivity.
Qed.

Lemma find_raises_on_non_integer_key_witness :
  result (find "a" 1) hand_made = Raise ValueError
  /\ exists l, result (query "a" 1) hand_made = Ok l.
Proof.
  apply (find_raises_on_non_integer_key hand_made
           (Node "a" [("x", Node "b" [])]) (Node "b" []) "x" "a" 1).
  - reflexivity.
  - simpl. auto.
  - reflexivity.
Defined.

(** X13. The module's own [levenshtein] does not keep the contract of the
    tree: it breaks the triangle inequality, and in the object
    [BKTree(levenshtein, ["abcdZZ", "abcd"])] the stored word ["abcd"], at
    distance 2 of ["aQQbcd"], is returned neither by [query("aQQbcd", 2)]
    nor by [find("aQQbcd", 2)]. *)
Theorem levenshtein_tree_misses_match :
  ~ metric levenshtein
  /\ built lev_pair
  /\ distance_func lev_pair = levenshtein
  /\ In "abcd" (stored_words lev_pair)
  /\ levenshtein "aQQbcd" "abcd" = 2
  /\ result (query "aQQbcd" 2) lev_pair = Ok []
  /\ result (find "aQQbcd" 2) lev_pair = Ok [].
Proof.
  split.
  - intros Hm.
    pose proof (metric_triangle _ Hm "abcdZZ" "abcd" "aQQbcd") as H.
    vm_compute in H. now apply H.
  - split; [exact lev_pair_built|]. split; [reflexivity|].
    split; [simpl; auto|].
    repeat split; vm_compute; reflexivity.
Qed.

End Extras.

(** * [dict_words] *)

Section WordsFacts.

Lemma chars_app (a b : string) : chars (a ++ b) = chars a ++ chars b.
Proof. induction a; simpl; [reflexivity | now f_equal]. Qed.

Lemma lstrip_chars (s : string) (c : ascii) :
  In c (chars (lstrip s)) -> In c (chars s).
Proof.
  induction s as [|a s IH]; simpl; [tauto|].
  destruct (is_space a); simpl; tauto.
Qed.

Lemma rstrip_chars (s : string) (c : ascii) :
  In c (chars (rstrip s)) -> In c (chars s).
Proof.
  revert c. induction s as [|a s IH]; intros c; simpl; [tauto|].
  destruct (rstrip s) as [|c' r'].
  - destruct (is_space a); simpl; tauto.
  - simpl in *. intros [H|H]; [now left | right; now apply IH].
Qed.

Lemma strip_chars (s : string) (c : ascii) :
  In c (chars (strip s)) -> In c (chars s).
Proof. intros H. now apply lstrip_chars, rstrip_chars. Qed.

(** What [lstrip] leaves does not begin with white space. *)
Lemma lstrip_head (s : string) :
  match lstrip s with
  | EmptyString => True
  | String c _ => is_space c = false
  end.
Proof.
  induction s as [|a s IH]; simpl; [exact I|].
  destruct (is_space a) eqn:E; [exact IH | exact E].
Qed.

Lemma rstrip_head (c : ascii) (s : string) :
  is_space c = false -> exists r, rstrip (String c s) = String c r.
Proof.
  intros Hc. simpl. destruct (rstrip s) as [|c' r'].
  - rewrite Hc. now exists EmptyString.
  - now exists (String c' r').
Qed.

Lemma rstrip_idem (s : string) : rstrip (rstrip s) = rstrip s.
Proof.
  induction s as [|a s IH]; [reflexivity|].
  simpl. destruct (rstrip s) as [|c' r'] eqn:E.
  - destruct (is_space a) eqn:Ha; [reflexivity|]. simpl. now rewrite Ha.
  - change (rstrip (String a (String c' r')))
      with (match rstrip (String c' r') with
            | EmptyString =>
                if is_space a then EmptyString else String a EmptyString
            | String c1 r1 => String a (String c1 r1)
            end).
    now rewrite IH.
Qed.

Lemma strip_lstrip (s : string) : lstrip (strip s) = strip s.
Proof.
  unfold strip. pose proof (lstrip_head s) as H.
  destruct (lstrip s) as [|c r]; [reflexivity|].
  destruct (rstrip_head c r H) as (r' & ->).
  simpl. now rewrite H.
Qed.

Lemma strip_idem (s : string) : strip (strip s) = strip s.
Proof.
  unfold strip at 1. rewrite strip_lstrip. unfold strip.
  apply rstrip_idem.
Qed.

(** White space at the end of a line does not count. *)
Lemma rstrip_space_end (s : string) (c : ascii) :
  is_space c = true -> rstrip (s ++ String c EmptyString) = rstrip s.
Proof.
  intros Hc. induction s as [|a s IH]; simpl.
  - now rewrite Hc.
  - now rewrite IH.
Qed.

Lemma lstrip_all_space (s : string) :
  (forall c, In c (chars s) -> is_space c = true) -> lstrip s = EmptyString.
Proof.
  induction s as [|a s IH]; intros H; [reflexivity|].
  simpl. rewrite (H a (or_introl eq_refl)).
  apply IH. intros c Hc. apply H. now right.
Qed.

Lemma lstrip_app (s t : string) :
  lstrip (s ++ t)
  = if all_space s then lstrip t else (lstrip s ++ t)%string.
Proof.
  induction s as [|a s IH]; simpl.
  - reflexivity.
  - destruct (is_space a); simpl; [exact IH | reflexivity].
Qed.

Lemma lstrip_of_all_space (s : string) :
  all_space s = true -> lstrip s = EmptyString.
Proof.
  induction s as [|a s IH]; simpl; [reflexivity|].
  destruct (is_space a); simpl; [exact IH | discriminate].
Qed.

Lemma strip_newline_end (body : string) :
  strip (body ++ String LF EmptyString) = strip body.
Proof.
  unfold strip. rewrite lstrip_app.
  destruct (all_space body) eqn:E.
  - now rewrite (lstrip_of_all_space body E).
  - now apply rstrip_space_end.
Qed.

Lemma translate_newlines_chars (text : string) (c : ascii) :
  In c (chars (translate_newlines text)) ->
  c <> CR /\ (c = LF \/ In c (chars text)).
Proof.
  revert c.
  assert (H : forall (n : nat) (text : string), (String.length text <= n)%nat ->
                forall c, In c (chars (translate_newlines text)) ->
                          c <> CR /\ (c = LF \/ In c (chars text))).
  { induction n as [|n IH]; intros [|a r] Hlen c Hc; simpl in *;
      try tauto; try lia.
    destruct (Ascii.eqb_spec a CR) as [Ea|Ea].
    - destruct r as [|c2 r2].
      + simpl in Hc. destruct Hc as [<-|[]]. split; [discriminate | now left].
      + destruct (Ascii.eqb c2 LF); simpl in Hc; destruct Hc as [<-|Hc];
          try (split; [discriminate | now left]).
        * destruct (IH r2 ltac:(simpl in Hlen; lia) c Hc) as [N [L|I]];
            (split; [exact N|]); [now left | right; simpl; tauto].
        * destruct (IH (String c2 r2) ltac:(lia) c Hc) as [N [L|I]];
            (split; [exact N|]); [now left | right; simpl in *; tauto].
    - simpl in Hc. destruct Hc as [<-|Hc].
      + split; [exact Ea | right; now left].
      + destruct (IH r ltac:(lia) c Hc) as [N [L|I]];
          (split; [exact N|]); [now left | right; now right]. }
  intros c. apply (H (String.length text) text). lia.
Qed.

(** A line is a stretch of the text without ["\n"], with or without a
    ["\n"] after it. *)
Lemma split_lines_body (text line : string) :
  In line (split_lines text) ->
  exists body,
    (line = (body ++ String LF EmptyString)%string \/ line = body)
    /\ ~ In LF (chars body)
    /\ forall c, In c (chars body) -> In c (chars text).
Proof.
  revert line. induction text as [|a r IH]; intros line Hl; [destruct Hl|].
  simpl in Hl. destruct (Ascii.eqb_spec a LF) as [Ea|Ea].
  - destruct Hl as [<-|Hl].
    + exists EmptyString. split; [now left|]. split; simpl; tauto.
    + destruct (IH line Hl) as (body & Hb & Hn & Hc).
      exists body. split; [exact Hb|]. split; [exact Hn|].
      intros c Hin. right. now apply Hc.
  - destruct (split_lines r) as [|l0 rest] eqn:E.
    + destruct Hl as [<-|[]]. exists (String a EmptyString).
      split; [now right|]. split.
      * simpl. intros [H|[]]. now apply Ea.
      * simpl. tauto.
    + destruct Hl as [<-|Hl].
      * destruct (IH l0 (or_introl eq_refl)) as (body & Hb & Hn & Hc).
        exists (String a body). split.
        -- destruct Hb as [->| ->]; [now left | now right].
        -- split.
           ++ simpl. intros [H|H]; [now apply Ea | now apply Hn].
           ++ simpl. intros c [H|H]; [now left | right; now apply Hc].
      * destruct (IH line (or_intror Hl)) as (body & Hb & Hn & Hc).
        exists body. split; [exact Hb|]. split; [exact Hn|].
        intros c Hin. right. now apply Hc.
Qed.

(** Every word comes from one line of the file. *)
Lemma dict_words_from_line (text w : string) :
  In w (dict_words text) ->
  w <> EmptyString
  /\ exists body,
       w = strip body
       /\ ~ In LF (chars body)
       /\ forall c, In c (chars body) ->
                    In c (chars (translate_newlines text)).
Proof.
  unfold dict_words, file_lines. rewrite filter_In, in_map_iff.
  intros [(line & <- & Hline) Hlen]. split.
  - intros E. rewrite E in Hlen. discriminate.
  - destruct (split_lines_body _ _ Hline) as (body & Hb & Hn & Hc).
    exists body. split; [|split; assumption].
    destruct Hb as [->| ->]; [apply strip_newline_end | reflexivity].
Qed.

End WordsFacts.

Section WordsRoundTrip.

Lemma translate_newlines_line (w rest : string) :
  ~ In CR (chars w) ->
  translate_newlines (w ++ String LF rest)
  = (w ++ String LF (translate_newlines rest))%string.
Proof.
  induction w as [|a w IH]; intros Hcr.
  - reflexivity.
  - simpl in *. destruct (Ascii.eqb_spec a CR) as [E|E]; [tauto|].
    rewrite IH by tauto. reflexivity.
Qed.

Lemma split_lines_line (w rest : string) :
  ~ In LF (chars w) ->
  split_lines (w ++ String LF rest)
  = (w ++ String LF EmptyString)%string :: split_lines rest.
Proof.
  induction w as [|a w IH]; intros Hlf.
  - reflexivity.
  - simpl in *. destruct (Ascii.eqb_spec a LF) as [E|E]; [tauto|].
    rewrite IH by tauto. reflexivity.
Qed.

Lemma dict_words_cons (w rest : string) :
  clean_word w ->
  dict_words (w ++ String LF rest) = w :: dict_words rest.
Proof.
  intros (Hne & Hstrip & Hlf & Hcr).
  unfold dict_words, file_lines.
  rewrite translate_newlines_line by exact Hcr.
  rewrite split_lines_line by exact Hlf.
  cbn [map filter]. rewrite strip_newline_end, Hstrip.
  destruct w as [|a w]; [congruence|]. reflexivity.
Qed.

End WordsRoundTrip.

Section WordsExtras.

(** X14. The words [dict_words] yields are clean: none is empty, none
    begins or ends with white space ([strip] leaves it as it is), and none
    holds a line break. *)
Theorem dict_words_are_clean (text w : string) :
  In w (dict_words text) -> clean_word w.
Proof.
  intros Hw.
  destruct (dict_words_from_line text w Hw) as (Hne & body & -> & Hlf & Hc).
  split; [exact Hne|]. split; [apply strip_idem|]. split.
  - intros H. apply Hlf. now apply strip_chars.
  - intros H. apply strip_chars, Hc, translate_newlines_chars in H.
    now destruct H.
Qed.

Lemma dict_words_are_clean_witness :
  clean_word "cook".
Proof.
  apply (dict_words_are_clean
           ("book" ++ String CR (String LF ("  cook " ++ String LF
              (String LF EmptyString))))
           "cook").
  vm_compute. auto.
Defined.

(** X15. A file without a word: when the file holds nothing but white
    space (or nothing at all), [dict_words] yields no word, and the
    constructor given this iterator raises [StopIteration]. *)
Theorem dict_words_blank_file (df : string -> string -> Z) (text : string) :
  (forall c, In c (chars text) -> is_space c = true) ->
  dict_words text = []
  /\ init df (Some (WordIter (dict_words text))) = Raise StopIteration.
Proof.
  intros Hblank.
  assert (E : dict_words text = []).
  { destruct (dict_words text) as [|w ws] eqn:Ew; [reflexivity|].
    destruct (dict_words_from_line text w) as (Hne & body & -> & _ & Hc);
      [rewrite Ew; now left|].
    elim Hne. unfold strip. rewrite lstrip_all_space; [reflexivity|].
    intros c Hin. apply Hc, translate_newlines_chars in Hin.
    destruct Hin as [_ [->|Hin]]; [reflexivity | now apply Hblank]. }
  split; [exact E|]. now rewrite E.
Qed.

Lemma dict_words_blank_file_witness :
  dict_words (String " " (String LF (String " " EmptyString))) = []
  /\ init levenshtein
       (Some (WordIter
                (dict_words (String " " (String LF (String " " EmptyString))))))
     = Raise StopIteration.
Proof.
  apply (dict_words_blank_file levenshtein).
  intros c H. simpl in H.
  destruct H as [<-|[<-|[<-|[]]]]; reflexivity.
Defined.

(** X16. Round trip with a word file: a text that holds clean words of
    ASCII characters, one per line, is read back by [dict_words] as exactly
    these words, in order.  (For ASCII the characters of the text are the
    bytes of the file under every ASCII-compatible encoding.) *)
Theorem dict_words_one_per_line_ascii (ws : list string) :
  Forall clean_word ws -> Forall ascii_only ws ->
  dict_words (one_per_line ws) = ws.
Proof.
  intros Hclean _. induction Hclean as [|w ws Hw _ IH]; [reflexivity|].
  cbn [one_per_line]. rewrite dict_words_cons by exact Hw.
  now rewrite IH.
Qed.

Lemma dict_words_one_per_line_ascii_witness :
  dict_words (one_per_line ["book"; "New York"]) = ["book"; "New York"].
Proof.
  apply (dict_words_one_per_line_ascii ["book"; "New York"]).
  - repeat constructor; try discriminate;
      vm_compute; intuition discriminate.
  - repeat constructor; vm_compute; lia.
Defined.

End WordsExtras.

(** * Bounds on [levenshtein] *)

Section LevenshteinFacts.

Lemma wrap64_small (z : Z) : - 2 ^ 63 <= z < 2 ^ 63 -> wrap64 z = z.
Proof.
  assert (E63 : 2 ^ 63 = 9223372036854775808) by reflexivity.
  assert (E64 : 2 ^ 64 = 18446744073709551616) by reflexivity.
  unfold wrap64. rewrite E63, E64. intros H.
  rewrite Z.mod_small; lia.
Qed.

Lemma nth_add_scalar (row : list Z) (k : Z) (j : nat) :
  (j < List.length row)%nat ->
  nth j (add_scalar row k) 0 = wrap64 (nth j row 0 + k).
Proof.
  intros H. unfold add_scalar.
  rewrite (nth_indep _ 0 (wrap64 (0 + k))) by now rewrite length_map.
  apply (map_nth (fun x => wrap64 (x + k))).
Qed.

Lemma nth_np_minimum (a b : list Z) (j : nat) :
  (j < List.length a)%nat -> (j < List.length b)%nat ->
  nth j (np_minimum a b) 0 = Z.min (nth j a 0) (nth j b 0).
Proof.
  revert b j. induction a as [|x a IH]; intros [|y b] [|j] Ha Hb;
    simpl in *; try lia; try reflexivity.
  apply IH; lia.
Qed.

Lemma nth_np_add (a b : list Z) (j : nat) :
  (j < List.length a)%nat -> (j < List.length b)%nat ->
  nth j (np_add a b) 0 = wrap64 (nth j a 0 + nth j b 0).
Proof.
  revert b j. induction a as [|x a IH]; intros [|y b] [|j] Ha Hb;
    simpl in *; try lia; try reflexivity.
  apply IH; lia.
Qed.

Lemma length_np_minimum (a b : list Z) :
  List.length (np_minimum a b) = Nat.min (List.length a) (List.length b).
Proof. unfold np_minimum. now rewrite length_map, length_combine. Qed.

Lemma length_np_add (a b : list Z) :
  List.length (np_add a b) = Nat.min (List.length a) (List.length b).
Proof. unfold np_add. now rewrite length_map, length_combine. Qed.

Lemma length_add_scalar (row : list Z) (k : Z) :
  List.length (add_scalar row k) = List.length row.
Proof. unfold add_scalar. apply length_map. Qed.

Lemma length_np_ne (target : list ascii) (s : ascii) :
  List.length (np_ne target s) = List.length target.
Proof. unfold np_ne. apply length_map. Qed.

Lemma nth_np_ne (target : list ascii) (s : ascii) (j : nat) :
  (j < List.length target)%nat ->
  nth j (np_ne target s) 0
  = if Ascii.eqb (nth j target s) s then 0 else 1.
Proof.
  revert j. induction target as [|t target IH]; intros [|j] H;
    simpl in *; try lia; try reflexivity.
  apply IH. lia.
Qed.

Lemma nth_tl {A} (l : list A) (j : nat) (d : A) :
  nth j (tl l) d = nth (S j) l d.
Proof. destruct l; [now destruct j | reflexivity]. Qed.

Lemma length_tl {A} (l : list A) : List.length (tl l) = pred (List.length l).
Proof. now destruct l. Qed.

Lemma length_removelast {A} (l : list A) :
  List.length (removelast l) = pred (List.length l).
Proof.
  induction l as [|x [|y l] IH]; try reflexivity.
  change (removelast (x :: y :: l)) with (x :: removelast (y :: l)).
  simpl in *. now rewrite IH.
Qed.

Lemma nth_removelast {A} (l : list A) (j : nat) (d : A) :
  (S j < List.length l)%nat -> nth j (removelast l) d = nth j l d.
Proof.
  revert j. induction l as [|x [|y l] IH]; intros j H; simpl in H; try lia.
  change (removelast (x :: y :: l)) with (x :: removelast (y :: l)).
  destruct j; [reflexivity|]. simpl. apply IH. simpl. lia.
Qed.

Lemma last_is_nth {A} (l : list A) (d : A) :
  last l d = nth (pred (List.length l)) l d.
Proof.
  induction l as [|x [|y l] IH]; try reflexivity.
  change (last (x :: y :: l) d) with (last (y :: l) d). now rewrite IH.
Qed.

Lemma nth_range_0 (n : Z) (j : nat) :
  Z.of_nat j < n -> nth j (range 0 n) 0 = Z.of_nat j.
Proof.
  intros H. unfold range.
  rewrite (nth_indep _ 0 (0 + Z.of_nat 0))
    by (rewrite length_map, length_seq; lia).
  rewrite (map_nth (fun k => 0 + Z.of_nat k)), seq_nth by lia.
  lia.
Qed.

Lemma length_range (lo hi : Z) :
  List.length (range lo hi) = Z.to_nat (hi - lo).
Proof. unfold range. now rewrite length_map, length_seq. Qed.

(** One pass of the loop, entry by entry, while no number is near the
    end of the [int64] range. *)
Lemma row_step_entries (target : list ascii) (row : list Z) (s : ascii) :
  List.length row = S (List.length target) ->
  (forall j, (j <= List.length target)%nat ->
             0 <= nth j row 0 < 2 ^ 62) ->
  List.length (row_step target row s) = S (List.length target)
  /\ nth 0 (row_step target row s) 0 = nth 0 row 0 + 1
  /\ forall j, (j < List.length target)%nat ->
       nth (S j) (row_step target row s) 0
       = Z.min (Z.min (nth (S j) row 0 + 1)
                      (nth j row 0
                       + if Ascii.eqb (nth j target s) s then 0 else 1))
               (match j with
                | O => nth 0 row 0 + 1
                | S i =>
                    Z.min (nth j row 0 + 1)
                          (nth i row 0
                           + if Ascii.eqb (nth i target s) s then 0 else 1)
                end + 1).
Proof.
  intros Hlen Hsmall.
  assert (E62 : 2 ^ 62 = 4611686018427387904) by reflexivity.
  assert (E63 : 2 ^ 63 = 9223372036854775808) by reflexivity.
  destruct row as [|x0 rest]; [discriminate|].
  simpl in Hlen. injection Hlen as Hlen.
  set (m := List.length target) in *.
  (* the row after the substitution step *)
  set (cur1 := wrap64 (x0 + 1)
               :: np_minimum (add_scalar rest 1)
                    (np_add (removelast (x0 :: rest)) (np_ne target s))).
  assert (Hstep : row_step target (x0 :: rest) s
                  = wrap64 (x0 + 1)
                    :: np_minimum (tl cur1)
                         (add_scalar (removelast cur1) 1))
    by reflexivity.
  assert (Lrl : List.length (removelast (x0 :: rest)) = m)
    by (rewrite length_removelast; simpl; lia).
  assert (Lcur1 : List.length cur1 = S m).
  { unfold cur1. cbn [List.length].
    rewrite length_np_minimum, length_add_scalar, length_np_add, Lrl,
      length_np_ne. fold m. lia. }
  assert (H0 : wrap64 (x0 + 1) = x0 + 1).
  { apply wrap64_small. specialize (Hsmall O ltac:(lia)). simpl in Hsmall.
    lia. }
  assert (Hcur1 : forall j, (j < m)%nat ->
            nth (S j) cur1 0
            = Z.min (nth (S j) (x0 :: rest) 0 + 1)
                    (nth j (x0 :: rest) 0
                     + if Ascii.eqb (nth j target s) s then 0 else 1)).
  { intros j Hj. unfold cur1. cbn [nth].
    rewrite nth_np_minimum
      by (rewrite ?length_add_scalar, ?length_np_add, ?Lrl, ?length_np_ne;
          fold m; lia).
    rewrite nth_add_scalar by lia.
    rewrite nth_np_add by (rewrite ?Lrl, ?length_np_ne; fold m; lia).
    rewrite nth_removelast by (simpl; lia).
    rewrite nth_np_ne by (fold m; lia).
    pose proof (Hsmall (S j) ltac:(lia)) as B1.
    pose proof (Hsmall j ltac:(lia)) as B2.
    cbn [nth] in B1. 
    rewrite !wrap64_small;
      [reflexivity | destruct (Ascii.eqb _ _); lia | lia]. }
  rewrite Hstep. split; [|split].
  - cbn [List.length].
    rewrite length_np_minimum, length_tl, length_add_scalar,
      length_removelast, Lcur1. simpl. lia.
  - cbn [nth]. exact H0.
  - intros j Hj. cbn [nth].
    rewrite nth_np_minimum
      by (rewrite ?length_tl, ?length_add_scalar, ?length_removelast, Lcur1;
          simpl; lia).
    rewrite nth_tl, nth_add_scalar
      by (rewrite length_removelast, Lcur1; simpl; lia).
    rewrite nth_removelast by (rewrite Lcur1; lia).
    rewrite (Hcur1 j Hj).
    destruct j as [|i].
    + unfold cur1. cbn [nth]. rewrite H0.
      rewrite wrap64_small; [reflexivity|].
      specialize (Hsmall O ltac:(lia)). simpl in Hsmall. lia.
    + rewrite (Hcur1 i ltac:(lia)).
      pose proof (Hsmall (S i) ltac:(lia)) as B1.
      pose proof (Hsmall i ltac:(lia)) as B2.
      rewrite wrap64_small; [reflexivity|].
      destruct (Ascii.eqb (nth i target s) s); lia.
Qed.

(** After [k] characters of the source, entry [j] of the row lies between
    [|k - j|] and [max(k, j)]. *)
Lemma row_step_bounds (target : list ascii) (row : list Z) (s : ascii)
    (k : nat) :
  List.length row = S (List.length target) ->
  Z.of_nat k < 2 ^ 62 -> Z.of_nat (List.length target) < 2 ^ 62 ->
  (forall j, (j <= List.length target)%nat ->
             Z.abs (Z.of_nat k - Z.of_nat j) <= nth j row 0
             <= Z.max (Z.of_nat k) (Z.of_nat j)) ->
  List.length (row_step target row s) = S (List.length target)
  /\ forall j, (j <= List.length target)%nat ->
       Z.abs (Z.of_nat (S k) - Z.of_nat j)
       <= nth j (row_step target row s) 0
       <= Z.max (Z.of_nat (S k)) (Z.of_nat j).
Proof.
  intros Hlen Hk Hm Hinv.
  destruct (row_step_entries target row s Hlen) as (L & E0 & Ej).
  { intros j Hj. specialize (Hinv j Hj). lia. }
  split; [exact L|]. intros [|j] Hj.
  - rewrite E0. specialize (Hinv O ltac:(lia)). lia.
  - rewrite (Ej j ltac:(lia)).
    pose proof (Hinv (S j) Hj) as B1.
    pose proof (Hinv j ltac:(lia)) as B2.
    destruct j as [|i].
    + destruct (Ascii.eqb (nth 0 target s) s); lia.
    + pose proof (Hinv i ltac:(lia)) as B3.
      destruct (Ascii.eqb (nth (S i) target s) s);
        destruct (Ascii.eqb (nth i target s) s); lia.
Qed.

Lemma fold_row_step_bounds (target : list ascii) (source : list ascii) :
  forall (row : list Z) (k : nat),
  List.length row = S (List.length target) ->
  Z.of_nat (k + List.length source) < 2 ^ 62 ->
  Z.of_nat (List.length target) < 2 ^ 62 ->
  (forall j, (j <= List.length target)%nat ->
             Z.abs (Z.of_nat k - Z.of_nat j) <= nth j row 0
             <= Z.max (Z.of_nat k) (Z.of_nat j)) ->
  let row' := fold_left (row_step target) source row in
  List.length row' = S (List.length target)
  /\ forall j, (j <= List.length target)%nat ->
       Z.abs (Z.of_nat (k + List.length source) - Z.of_nat j)
       <= nth j row' 0
       <= Z.max (Z.of_nat (k + List.length source)) (Z.of_nat j).
Proof.
  induction source as [|s source IH]; intros row k Hlen Hk Hm Hinv.
  - simpl. rewrite Nat.add_0_r. now split.
  - cbn [fold_left List.length] in *.
    destruct (row_step_bounds target row s k Hlen ltac:(lia) Hm Hinv)
      as (L & B).
    replace (k + S (List.length source))%nat
      with (S k + List.length source)%nat in * by lia.
    apply (IH (row_step target row s) (S k) L Hk Hm B).
Qed.

Lemma arange_bounds (m : nat) :
  List.length (arange (Z.of_nat m + 1)) = S m
  /\ forall j, (j <= m)%nat ->
       nth j (arange (Z.of_nat m + 1)) 0 = Z.of_nat j.
Proof.
  unfold arange. split.
  - rewrite length_range. lia.
  - intros j Hj. apply nth_range_0. lia.
Qed.

Lemma length_chars (s : string) :
  List.length (list_ascii_of_string s) = String.length s.
Proof. induction s; simpl; auto. Qed.

Lemma levenshtein_ordered_bounds (source target : string) :
  len target <= len source -> len source < 2 ^ 62 ->
  len source - len target <= levenshtein_ordered source target <= len source.
Proof.
  unfold levenshtein_ordered, len. intros Hle Hs.
  destruct (Z.eqb_spec (Z.of_nat (String.length target)) 0) as [E|E]; [lia|].
  cbn zeta.
  set (t := list_ascii_of_string target).
  set (s := list_ascii_of_string source).
  assert (Lt : List.length t = String.length target) by apply length_chars.
  assert (Ls : List.length s = String.length source) by apply length_chars.
  destruct (arange_bounds (List.length t)) as (L0 & N0).
  destruct (fold_row_step_bounds t s (arange (Z.of_nat (List.length t) + 1)) 0)
    as (L & B); [exact L0 | simpl; lia | lia | |].
  { intros j Hj. rewrite (N0 j Hj). lia. }
  rewrite last_is_nth, L. cbn [pred].
  specialize (B (List.length t) (le_n _)). simpl in B. lia.
Qed.

(** On equal strings the diagonal of the table stays at zero. *)
Lemma fold_row_step_diagonal (target : list ascii) (rest : list ascii) :
  forall (done : list ascii) (row : list Z),
  target = done ++ rest ->
  Z.of_nat (List.length target) < 2 ^ 62 ->
  List.length row = S (List.length target) ->
  (forall j, (j <= List.length target)%nat ->
             Z.abs (Z.of_nat (List.length done) - Z.of_nat j) <= nth j row 0
             <= Z.max (Z.of_nat (List.length done)) (Z.of_nat j)) ->
  nth (List.length done) row 0 = 0 ->
  nth (List.length target) (fold_left (row_step target) rest row) 0 = 0.
Proof.
  induction rest as [|s rest IH]; intros done row Ht Hm Hlen Hinv Hd.
  - rewrite app_nil_r in Ht. subst done. exact Hd.
  - cbn [fold_left].
    assert (Hk : (List.length done < List.length target)%nat)
      by (rewrite Ht, length_app; simpl; lia).
    destruct (row_step_bounds target row s (List.length done) Hlen
                ltac:(lia) Hm Hinv) as (L & B).
    destruct (row_step_entries target row s Hlen) as (_ & _ & Ej).
    { intros j Hj. specialize (Hinv j Hj). lia. }
    apply (IH (done ++ [s])).
    + now rewrite <- app_assoc.
    + exact Hm.
    + exact L.
    + rewrite length_app. simpl.
      replace (List.length done + 1)%nat with (S (List.length done)) by lia.
      exact B.
    + rewrite length_app. simpl.
      replace (List.length done + 1)%nat with (S (List.length done)) by lia.
      rewrite (Ej _ Hk), Hd.
      assert (Es : nth (List.length done) target s = s)
        by (rewrite Ht, app_nth2, Nat.sub_diag by lia; reflexivity).
      rewrite Es, Ascii.eqb_refl.
      pose proof (Hinv (S (List.length done)) ltac:(lia)) as B1.
      destruct (List.length done) as [|i] eqn:Ed.
      * pose proof (Hinv O ltac:(lia)) as B0. lia.
      * pose proof (Hinv i ltac:(lia)) as B2.
        pose proof (Hinv (S i) ltac:(lia)) as B3.
        destruct (Ascii.eqb (nth i target s) s); lia.
Qed.

End LevenshteinFacts.

Section LevenshteinExtras.

(** X17. Bounds: for strings of fewer than [2 ^ 62] characters, where the
    [int64] rows cannot overflow, [levenshtein(a, b)] lies between the
    difference of the lengths and the greater length; so it is never
    negative, and it is zero only for strings of one length. *)
Theorem levenshtein_bounds (a b : string) :
  len a < 2 ^ 62 -> len b < 2 ^ 62 ->
  Z.abs (len a - len b) <= levenshtein a b <= Z.max (len a) (len b).
Proof.
  intros Ha Hb. unfold levenshtein.
  destruct (Z.ltb_spec (len a) (len b)) as [H|H].
  - pose proof (levenshtein_ordered_bounds b a ltac:(lia) Hb). lia.
  - pose proof (levenshtein_ordered_bounds a b H Ha). lia.
Qed.

Lemma levenshtein_bounds_witness :
  Z.abs (len "kitten" - len "sitting") <= levenshtein "kitten" "sitting"
  <= Z.max (len "kitten") (len "sitting").
Proof.
  apply (levenshtein_bounds "kitten" "sitting"); vm_compute; reflexivity.
Defined.

(** X18. A string is at distance zero of itself: [levenshtein(s, s) = 0]
    for every string of fewer than [2 ^ 62] characters. *)
Theorem levenshtein_self (s : string) :
  len s < 2 ^ 62 -> levenshtein s s = 0.
Proof.
  intros Hs. unfold levenshtein. rewrite Z.ltb_irrefl.
  unfold levenshtein_ordered.
  destruct (Z.eqb_spec (len s) 0) as [E|E]; [exact E|].
  cbn zeta. set (t := list_ascii_of_string s).
  assert (Lt : Z.of_nat (List.length t) < 2 ^ 62)
    by (unfold t; rewrite length_chars; exact Hs).
  destruct (arange_bounds (List.length t)) as (L0 & N0).
  assert (B0 : forall j, (j <= List.length t)%nat ->
             Z.abs (Z.of_nat 0 - Z.of_nat j)
             <= nth j (arange (Z.of_nat (List.length t) + 1)) 0
             <= Z.max (Z.of_nat 0) (Z.of_nat j))
    by (intros j Hj; rewrite (N0 j Hj); lia).
  destruct (fold_row_step_bounds t t _ 0 L0 ltac:(simpl; lia) Lt B0)
    as (L & _).
  rewrite last_is_nth, L. cbn [pred].
  apply (fold_row_step_diagonal t t [] _ eq_refl Lt L0 B0).
  apply (N0 O). lia.
Qed.

Lemma levenshtein_self_witness : levenshtein "book" "book" = 0.
Proof.
  apply (levenshtein_self "book"). vm_compute. reflexivity.
Defined.

End LevenshteinExtras.
